(** * sidewinder_msi: the interrupt distributor and the interrupt monitor loop

    A shallow embedding of [src/driver/distributor.cpp] (class [CDistributor],
    with its destructor from [src/driver/distributor.h]) and, from
    [src/driver/main.cpp], of [monitorInterrupts], [signalHandler] and
    [parseCommandLine].

    The C++ code talks to the operating system (FIFOs, descriptors, [select])
    and to two memory-mapped registers.  The embedding threads an explicit
    state through every call: the [CDistributor] object and a [World] that
    holds the filesystem namespace, the descriptor table of the process and
    the chronological log of every system call and register access.  Code
    whose behaviour C++ leaves undefined (a store past the end of [fd_], a
    [sprintf] past the end of a name buffer) ends in the outcome [Undefined]. *)

From Stdlib Require Import ZArith Lia Ascii.
From stdpp Require Import base tactics option list gmap sets strings pretty.

Local Open Scope Z_scope.

(* [set_solver] clears hypotheses by name as it goes; the warning it
   triggers on each of them is of no use here. *)
Local Set Warnings "-clear-no-such-hyp".

(** ** Machine integers *)

(** Conversion of a mathematical integer to a 32-bit [int] (two's complement)
    and to [uint32_t] / [uint8_t]. *)
Definition wrap_int (x : Z) : Z := (x + 2 ^ 31) `mod` 2 ^ 32 - 2 ^ 31.
Definition wrap_u32 (x : Z) : Z := x `mod` 2 ^ 32.
Definition wrap_u8 (x : Z) : Z := x `mod` 2 ^ 8.

(** [a << i] on [int]. *)
Definition shl_int (a i : Z) : Z := wrap_int (Z.shiftl a i).

(** ** The world outside the program *)

Inductive reg := ImReg0 | ImReg1.
Inductive oflag := O_RDONLY | O_RDWR.
Inductive stream := Stdout | Stderr.
Inductive arg := AInt (z : Z) | AStr (s : string).

(** One entry per system call, register access or library call with an
    effect outside the process, in program order. *)
Inductive event :=
| EvRemove (name : string)
| EvMkfifo (name : string) (mode : Z) (ret : Z)
| EvOpen (name : string) (flags : oflag) (ret : Z)
| EvClose (fd : Z)
| EvSelect (nfds : Z) (wfds : gset Z) (timeout : Z * Z) (ready : gset Z)
| EvWrite (fd : Z) (data : string)
| EvRead (fd : Z) (count : Z) (ret : Z)
| EvPread (fd : Z) (count : Z) (offset : Z) (ret : Z)
| EvPwrite (fd : Z) (byte : Z) (offset : Z) (ret : Z)
| EvLoad (r : reg) (value : Z)
| EvStore (r : reg) (value : Z)
| EvPrintf (out : stream) (fmt : string) (args : list arg)
| EvPerror (msg : string)
| EvSpawnSelfTest (r : reg).

(** [files]: the names present in the filesystem namespace.
    [fdtable]: the descriptor table of the process, slot [n] holding the name
    descriptor [n] was opened on.
    [mkfifo_ok], [open_ok]: whether the system lets the process create, resp.
    open, that name (directory present, permissions, ...).
    [remove_ok]: whether the system lets the process remove that name when
    it is there (it does not for a directory that is not empty, or in a
    directory the process may not write to).
    [writable]: the descriptors a readiness poll reports as writable without
    blocking.
    [log]: what the process has done so far, oldest first. *)
Record World := mkWorld {
  files : gset string;
  fdtable : list (option string);
  mkfifo_ok : string → bool;
  open_ok : string → bool;
  remove_ok : string → bool;
  writable : Z → bool;
  log : list event
}.

(** ** The distributor object (distributor.h) *)

Definition MAX_IRQS : Z := 32.

Record CDistributor := mkDistributor {
  fd_ : list Z;
  highestFD_ : Z;
  irqCount_ : Z;
  path_ : string
}.

Record State := mkState { obj : CDistributor; world : World }.

(** ** Outcomes and the state monad *)

Inductive fault := ArrayOverrun | BufferOverrun | FdSetOverrun | UninitRead.

(** [Returned]: the call returned.  [Exited]: the code called [exit]; the
    state is the one at the call, before anything [exit] itself does (what
    it does, running the destructor of the static distributor, is [at_exit]
    below).  [Undefined]: the code ran into undefined behaviour; the state
    is the one reached just before.  [Blocked]: a blocking call has not
    returned because the scripted environment has no further answer. *)
Inductive outcome (A : Type) :=
| Returned (a : A) (s : State)
| Exited (code : Z) (s : State)
| Undefined (f : fault) (s : State)
| Blocked (s : State).
Arguments Returned {A} a s.
Arguments Exited {A} code s.
Arguments Undefined {A} f s.
Arguments Blocked {A} s.

Definition M (A : Type) : Type := State → outcome A.

Definition ret {A} (a : A) : M A := λ s, Returned a s.

Definition bind {A B} (m : M A) (k : A → M B) : M B := λ s,
  match m s with
  | Returned a s' => k a s'
  | Exited c s' => Exited c s'
  | Undefined f s' => Undefined f s'
  | Blocked s' => Blocked s'
  end.

Declare Scope prog_scope.
Delimit Scope prog_scope with prog.
Bind Scope prog_scope with M.
Notation "'let*' x := m 'in' k" := (bind m (λ x, k))
  (at level 10, x name, m at level 100, k at level 200) : prog_scope.
Notation "m ;; k" := (bind m (λ _, k))
  (at level 100, k at level 200, right associativity) : prog_scope.

(** The state an outcome stops in. *)
Definition final {A} (o : outcome A) : State :=
  match o with
  | Returned _ s | Exited _ s | Undefined _ s | Blocked s => s
  end.

(** The call [exit(code)], up to the point where [exit] takes over. *)
Definition exit {A} (code : Z) : M A := λ s, Exited code s.
Definition undefined {A} (f : fault) : M A := λ s, Undefined f s.
Definition blocked {A} : M A := λ s, Blocked s.

(** *** State accessors *)

Definition set_log (l : list event) (w : World) : World :=
  mkWorld (files w) (fdtable w) (mkfifo_ok w) (open_ok w) (remove_ok w) (writable w) l.
Definition set_files (f : gset string) (w : World) : World :=
  mkWorld f (fdtable w) (mkfifo_ok w) (open_ok w) (remove_ok w) (writable w) (log w).
Definition set_fdtable (t : list (option string)) (w : World) : World :=
  mkWorld (files w) t (mkfifo_ok w) (open_ok w) (remove_ok w) (writable w) (log w).

Definition emit (e : event) (w : World) : World := set_log (log w ++ [e]) w.

Definition set_fd (l : list Z) (d : CDistributor) : CDistributor :=
  mkDistributor l (highestFD_ d) (irqCount_ d) (path_ d).
Definition set_highestFD (h : Z) (d : CDistributor) : CDistributor :=
  mkDistributor (fd_ d) h (irqCount_ d) (path_ d).
Definition set_irqCount (n : Z) (d : CDistributor) : CDistributor :=
  mkDistributor (fd_ d) (highestFD_ d) n (path_ d).
Definition set_path (p : string) (d : CDistributor) : CDistributor :=
  mkDistributor (fd_ d) (highestFD_ d) (irqCount_ d) p.

Definition get {A} (f : CDistributor → A) : M A := λ s, Returned (f (obj s)) s.
Definition modify (f : CDistributor → CDistributor) : M unit := λ s,
  Returned tt (mkState (f (obj s)) (world s)).
Definition act (f : World → World) : M unit := λ s,
  Returned tt (mkState (obj s) (f (world s))).
Definition trace (e : event) : M unit := act (emit e).

(** [fd_[i]] as an rvalue and [fd_[i] = v]: an index outside the array is
    undefined behaviour. *)
Definition load_fd (i : Z) : M Z := λ s,
  if bool_decide (0 ≤ i < MAX_IRQS) then
    match fd_ (obj s) !! Z.to_nat i with
    | Some v => Returned v s
    | None => Undefined ArrayOverrun s
    end
  else Undefined ArrayOverrun s.

Definition store_fd (i v : Z) : M unit := λ s,
  if bool_decide (0 ≤ i < MAX_IRQS ∧ (Z.to_nat i < length (fd_ (obj s)))%nat) then
    Returned tt (mkState (set_fd (<[Z.to_nat i := v]> (fd_ (obj s))) (obj s)) (world s))
  else Undefined ArrayOverrun s.

(** ** System calls *)

(** [remove(name)]: the name is gone afterwards if the system lets the
    process remove it; otherwise the call fails and the name stays.  The
    code never looks at the result. *)
Definition sys_remove (name : string) : M unit :=
  act (λ w, emit (EvRemove name)
              (if remove_ok w name then set_files (files w ∖ {[name]}) w else w)).

(** [mkfifo(name, mode)]: fails when the name exists or the system refuses. *)
Definition sys_mkfifo (name : string) (mode : Z) : M Z := λ s,
  let w := world s in
  if bool_decide (name ∉ files w) && mkfifo_ok w name then
    Returned 0 (mkState (obj s)
      (emit (EvMkfifo name mode 0) (set_files ({[name]} ∪ files w) w)))
  else Returned (-1) (mkState (obj s) (emit (EvMkfifo name mode (-1)) w)).

(** The lowest free slot of a descriptor table. *)
Fixpoint first_free (t : list (option string)) : nat :=
  match t with
  | Some _ :: t' => S (first_free t')
  | _ => O
  end.

Definition alloc_fd (name : string) (t : list (option string)) : list (option string) :=
  let n := first_free t in
  if bool_decide (n < length t)%nat then <[n := Some name]> t else t ++ [Some name].

(** [open(name, flags)]: the lowest free descriptor, or -1. *)
Definition sys_open (name : string) (flags : oflag) : M Z := λ s,
  let w := world s in
  if bool_decide (name ∈ files w) && open_ok w name then
    let fd := Z.of_nat (first_free (fdtable w)) in
    Returned fd (mkState (obj s)
      (emit (EvOpen name flags fd) (set_fdtable (alloc_fd name (fdtable w)) w)))
  else Returned (-1) (mkState (obj s) (emit (EvOpen name flags (-1)) w)).

(** [close(fd)]: frees the slot; a descriptor that is not open changes
    nothing. *)
Definition close_slot (fd : Z) (t : list (option string)) : list (option string) :=
  if bool_decide (0 ≤ fd) then <[Z.to_nat fd := None]> t else t.

Definition sys_close (fd : Z) : M unit :=
  act (λ w, emit (EvClose fd) (set_fdtable (close_slot fd (fdtable w)) w)).

(** [fd_set], [FD_SET] and [FD_ISSET]. *)
Definition FD_SETSIZE : Z := 1024.

Definition FD_SET (fd : Z) (set : gset Z) : M (gset Z) :=
  if bool_decide (0 ≤ fd < FD_SETSIZE) then ret ({[fd]} ∪ set)
  else undefined FdSetOverrun.

Definition FD_ISSET (fd : Z) (set : gset Z) : bool := bool_decide (fd ∈ set).

(** [select(nfds, NULL, &wfds, NULL, &timeout)]: [wfds] is replaced by its
    members below [nfds] that can be written without blocking. *)
Definition sys_select (nfds : Z) (wfds : gset Z) (timeout : Z * Z) : M (gset Z) := λ s,
  let w := world s in
  let ready := filter (λ fd, fd < nfds ∧ writable w fd = true) wfds in
  Returned ready (mkState (obj s) (emit (EvSelect nfds wfds timeout ready) w)).

(** [write(fd, data, |data|)]; the code throws the result away. *)
Definition sys_write (fd : Z) (data : string) : M unit := trace (EvWrite fd data).

Definition printf (fmt : string) (args : list arg) : M unit :=
  trace (EvPrintf Stdout fmt args).
Definition fprintf (out : stream) (fmt : string) (args : list arg) : M unit :=
  trace (EvPrintf out fmt args).
Definition perror (msg : string) : M unit := trace (EvPerror msg).

(** [sprintf] into a buffer of [cap] bytes: the text and its terminating zero
    have to fit.  [pipe_name path n] is the text of the format "%s%i" (and of
    "%s%d") applied to [path] and [n]. *)
Definition pipe_name (path : string) (n : Z) : string := path +:+ pretty n.

Definition sprintf (cap : Z) (text : string) : M string :=
  if bool_decide (Z.of_nat (String.length text) < cap) then ret text
  else undefined BufferOverrun.

Definition sprintf_name (cap : Z) (path : string) (n : Z) : M string :=
  sprintf cap (pipe_name path n).

Local Open Scope prog_scope.

(** ** distributor.cpp *)

(** [createPipe(path, n)] *)
Definition createPipe (path : string) (n : Z) : M Z :=
  let* name := sprintf_name 256 path n in
  sys_remove name;;
  let* r := sys_mkfifo name 438 in
  if negb (r =? 0) then
    fprintf Stderr "Failed to make fifo %s\n" [AStr name];;
    ret (-1)
  else
    let* fd := sys_open name O_RDWR in
    if fd <? 0 then
      fprintf Stderr "Failed to open fifo %s\n" [AStr name];;
      ret (-1)
    else ret fd.

(** [openPipe(path, n)] *)
Definition openPipe (path : string) (n : Z) : M Z :=
  let* name := sprintf_name 256 path n in
  let* fd := sys_open name O_RDONLY in
  if fd <? 0 then
    fprintf Stderr "Failed to open fifo %s\n" [AStr name];;
    exit 1
  else ret fd.

(** The constructor.  [highestFD_] is not initialised by it and keeps
    whatever the storage held, [path_] is the empty string. *)
Definition CDistributor_new (garbage : Z) : CDistributor :=
  mkDistributor (replicate (Z.to_nat MAX_IRQS) (-1)) garbage 0 "".

(** The loop of [init]; [todo] is the number of iterations left, that is
    [irqCount - i]. *)
Fixpoint init_loop (todo : nat) (i : Z) : M bool :=
  match todo with
  | O => ret true
  | S todo' =>
      let* path := get path_ in
      let* fd := createPipe path i in
      store_fd i fd;;
      let* v := load_fd i in
      if v =? -1 then ret false
      else
        let* h := get highestFD_ in
        (if h <? v then modify (set_highestFD v) else ret tt);;
        init_loop todo' (i + 1)
  end.

(** [CDistributor::init(dir, irqCount)] *)
Definition init (dir : string) (irqCount : Z) : M bool :=
  modify (set_path (dir +:+ "/interrupt"));;
  modify (set_irqCount irqCount);;
  modify (set_highestFD (-1));;
  init_loop (Z.to_nat irqCount) 0.

(** The two loops of [distribute]. *)
Fixpoint fdset_loop (todo : nat) (i : Z) (wfds : gset Z) : M (gset Z) :=
  match todo with
  | O => ret wfds
  | S todo' =>
      let* fd := load_fd i in
      let* wfds' := FD_SET fd wfds in
      fdset_loop todo' (i + 1) wfds'
  end.

Fixpoint write_loop (todo : nat) (i : Z) (irqSources : Z) (wfds : gset Z) : M unit :=
  match todo with
  | O => ret tt
  | S todo' =>
      let* fd := load_fd i in
      (if negb (Z.land irqSources (shl_int 1 i) =? 0) then
         if FD_ISSET fd wfds then sys_write fd "X" else ret tt
       else ret tt);;
      write_loop todo' (i + 1) irqSources wfds
  end.

(** [CDistributor::distribute(irqSources)] *)
Definition distribute (irqSources : Z) : M unit :=
  let* n := get irqCount_ in
  let* wfds := fdset_loop (Z.to_nat n) 0 ∅ in
  let* h := get highestFD_ in
  let* ready := sys_select (h + 1) wfds (0, 0) in
  write_loop (Z.to_nat n) 0 irqSources ready.

(** The two loops of [cleanup]. *)
Fixpoint close_loop (todo : nat) (i : Z) : M unit :=
  match todo with
  | O => ret tt
  | S todo' =>
      let* fd := load_fd i in
      (if negb (fd =? -1) then sys_close fd else ret tt);;
      store_fd i (-1);;
      close_loop todo' (i + 1)
  end.

Fixpoint remove_loop (todo : nat) (i : Z) (path : string) : M unit :=
  match todo with
  | O => ret tt
  | S todo' =>
      let* filename := sprintf_name 256 path i in
      sys_remove filename;;
      remove_loop todo' (i + 1) path
  end.

(** [CDistributor::cleanup()] *)
Definition cleanup : M unit :=
  let* n := get irqCount_ in
  close_loop (Z.to_nat n) 0;;
  let* path := get path_ in
  if bool_decide (path = "") then ret tt
  else remove_loop (Z.to_nat MAX_IRQS) 0 path.

(** [CDistributor::spawnSelfTest(imReg0)]: starting the detached thread is
    one event of the log. *)
Definition spawnSelfTest (imReg0 : reg) : M unit :=
  let* n := get irqCount_ in
  if n =? 0 then ret tt
  else trace (EvSpawnSelfTest imReg0).

(** The local array [int fd[MAX_IRQS]] of [selfTest]: a slot is [None] until
    it is stored to. *)
Definition local_store (fd : list (option Z)) (i v : Z) : M (list (option Z)) :=
  if bool_decide (0 ≤ i < MAX_IRQS) then ret (<[Z.to_nat i := Some v]> fd)
  else undefined ArrayOverrun.

Definition local_load (fd : list (option Z)) (i : Z) : M Z :=
  if bool_decide (0 ≤ i < MAX_IRQS) then
    match fd !! Z.to_nat i with
    | Some (Some v) => ret v
    | _ => undefined UninitRead
    end
  else undefined ArrayOverrun.

Fixpoint selfTest_open (todo : nat) (i : Z) (path : string) (fd : list (option Z))
  : M (list (option Z)) :=
  match todo with
  | O => ret fd
  | S todo' =>
      let* f := openPipe path i in
      let* fd' := local_store fd i f in
      selfTest_open todo' (i + 1) path fd'
  end.

(** One decision of the self-test loop after [read] has returned. *)
Inductive verdict := Break | Terminate (code : Z) | Next (irq : Z).

Definition selfTest_verdict (irqCount irq bytesRead : Z) : verdict :=
  if bytesRead =? 0 then Break
  else if negb (bytesRead =? 1) then Terminate 1
  else if irq + 1 =? irqCount then Next 0 else Next (irq + 1).

(** The [while (true)] loop of [selfTest].  [reads] scripts what the
    successive blocking [read] calls return; when it runs out the thread
    stays blocked in [read]. *)
Fixpoint selfTest_loop (reads : list Z) (imReg0 : reg) (fd : list (option Z))
    (counter irq : Z) : M unit :=
  let counter' := wrap_u32 (counter + 1) in
  printf "Generating interrupt #%d on irq %d\n" [AInt counter'; AInt irq];;
  trace (EvStore imReg0 (wrap_u32 (shl_int 1 irq)));;
  let* f := local_load fd irq in
  match reads with
  | [] => blocked
  | bytesRead :: reads' =>
      trace (EvRead f 1 bytesRead);;
      let* n := get irqCount_ in
      match selfTest_verdict n irq bytesRead with
      | Break => ret tt
      | Terminate code =>
          printf "bytesRead was %d!\n" [AInt bytesRead];;
          exit code
      | Next irq' => selfTest_loop reads' imReg0 fd counter' irq'
      end
  end.

(** [CDistributor::selfTest(imReg0)] *)
Definition selfTest (imReg0 : reg) (reads : list Z) : M unit :=
  let* path := get path_ in
  let* n := get irqCount_ in
  let* fd := selfTest_open (Z.to_nat n) 0 path (replicate (Z.to_nat MAX_IRQS) None) in
  selfTest_loop reads imReg0 fd 0 0.

(** ** main.cpp: the interrupt monitor loop *)

(** What the kernel and the hardware answer during one pass of the loop:
    the result of [pwrite], the result of the blocking [read] and the
    content of the status register. *)
Record uio_pass := mkPass { pwrite_ret : Z; read_ret : Z; status : Z }.

(** One pass of the [while (true)] loop of [monitorInterrupts]. *)
Definition monitor_pass (verbose : bool) (configfd uiofd commandHigh : Z)
    (p : uio_pass) : M unit :=
  trace (EvPwrite configfd commandHigh 5 (pwrite_ret p));;
  if negb (pwrite_ret p =? 1) then perror "config write:";; exit 1
  else
    trace (EvRead uiofd 4 (read_ret p));;
    if negb (read_ret p =? 4) then perror "uio read:";; exit 1
    else
      let intSources := wrap_u32 (status p) in
      trace (EvLoad ImReg0 intSources);;
      if intSources =? 0 then ret tt
      else
        (if verbose
         then printf "Interrupt from sources 0x%08x\n" [AInt intSources]
         else ret tt);;
        trace (EvStore ImReg1 intSources);;
        distribute (wrap_int intSources).

(** The [while (true)] loop of [monitorInterrupts].  [script] lists the
    passes in which [read] returns or [pwrite] fails.  When it runs out, the
    process is in the next pass: it has re-armed the interrupt, with a
    [pwrite] that succeeded, and stays blocked in [read]. *)
Fixpoint monitor_loop (verbose : bool) (configfd uiofd commandHigh : Z)
    (script : list uio_pass) : M unit :=
  match script with
  | [] => trace (EvPwrite configfd commandHigh 5 1);; blocked
  | p :: script' =>
      monitor_pass verbose configfd uiofd commandHigh p;;
      monitor_loop verbose configfd uiofd commandHigh script'
  end.

(** [monitorInterrupts(uioDevice)].  [verbose] is the global [conf.verbose];
    [pread_ret] and [pread_byte] are the result of the [pread] on the
    configuration space and the byte it delivers. *)
Definition monitorInterrupts (verbose : bool) (uioDevice : Z)
    (pread_ret pread_byte : Z) (script : list uio_pass) : M unit :=
  let* filename := sprintf 64 ("/dev/uio" +:+ pretty uioDevice) in
  let* uiofd := sys_open filename O_RDONLY in
  if uiofd <? 0 then perror "uio open:";; exit 1
  else
    let* filename :=
      sprintf 64 ("/sys/class/uio/uio" +:+ pretty uioDevice +:+ "/device/config") in
    let* configfd := sys_open filename O_RDWR in
    if configfd <? 0 then perror "config open:";; exit 1
    else
      trace (EvPread configfd 1 5 pread_ret);;
      if negb (pread_ret =? 1) then perror "command config read:";; exit 1
      else
        let commandHigh := wrap_u8 (Z.land pread_byte (Z.lnot 4)) in
        printf "Starting uio driver for device %d\n" [AInt uioDevice];;
        monitor_loop verbose configfd uiofd commandHigh script.

(** ** distributor.h: the destructor *)

(** [~CDistributor() {cleanup();}] *)
Definition CDistributor_delete : M unit := cleanup.

(** ** main.cpp: signals and the end of the process *)



(** [exit] runs the destructors of the statically declared objects before
    the process ends (this is what [signalHandler] calls it for); the
    static object [Distributor] is the one whose code is at hand. *)
Definition at_exit {A} (o : outcome A) : outcome A :=
  match o with
  | Exited code s =>
      match CDistributor_delete s with
      | Returned _ s' => Exited code s'
      | Exited code' s' => Exited code' s'
      | Undefined f s' => Undefined f s'
      | Blocked s' => Blocked s'
      end
  | _ => o
  end.

(** ** main.cpp: the command line *)

(** [struct conf_t]. *)
Module conf_t.
Record t := mk {
  device : string;
  dirName : string;
  irqCount : Z;
  axiAddr : Z;
  selfTest : bool;
  verbose : bool
}.
End conf_t.

(** How [parseCommandLine] can end: it returns with [conf] filled in, it
    calls [showHelp], which prints the options and ends the process with
    [exit(1)], [std::stoi] throws and nothing catches the exception, or it
    reads [argv] beyond its terminating null pointer. *)
Inductive parse_result :=
| Parsed (c : conf_t.t)
| ShowHelp
| Thrown
| BadArgv.

(** [argv[idx+1] && *argv[idx+1] != '-'], for a token that is there. *)
Definition has_argument (next : string) : bool :=
  match next with
  | String c _ => negb (Ascii.eqb c "-"%char)
  | EmptyString => true
  end.

(** The chain of comparisons on [option].  [stoi arg] is the value of
    [std::stoi(arg, 0, 0)], [None] when it throws. *)
Definition apply_option (stoi : string → option Z) (c : conf_t.t)
    (option arg : string) : parse_result :=
  if String.eqb option "-device" then
    Parsed (conf_t.mk arg (conf_t.dirName c) (conf_t.irqCount c) (conf_t.axiAddr c)
              (conf_t.selfTest c) (conf_t.verbose c))
  else if String.eqb option "-dir" then
    Parsed (conf_t.mk (conf_t.device c) arg (conf_t.irqCount c) (conf_t.axiAddr c)
              (conf_t.selfTest c) (conf_t.verbose c))
  else if String.eqb option "-vectors" then
    match stoi arg with
    | Some v =>
        Parsed (conf_t.mk (conf_t.device c) (conf_t.dirName c) v (conf_t.axiAddr c)
                  (conf_t.selfTest c) (conf_t.verbose c))
    | None => Thrown
    end
  else if String.eqb option "-axi" then
    match stoi arg with
    | Some v =>
        Parsed (conf_t.mk (conf_t.device c) (conf_t.dirName c) (conf_t.irqCount c)
                  (wrap_u32 v) (conf_t.selfTest c) (conf_t.verbose c))
    | None => Thrown
    end
  else if String.eqb option "-selftest" then
    Parsed (conf_t.mk (conf_t.device c) (conf_t.dirName c) (conf_t.irqCount c)
              (conf_t.axiAddr c) true (conf_t.verbose c))
  else if String.eqb option "-verbose" then
    Parsed (conf_t.mk (conf_t.device c) (conf_t.dirName c) (conf_t.irqCount c)
              (conf_t.axiAddr c) (conf_t.selfTest c) true)
  else ShowHelp.

(** The [while (true)] loop of [parseCommandLine] on the tokens from
    [argv[idx+1]] up to the terminating null pointer. *)
Fixpoint parse_loop (stoi : string → option Z) (c : conf_t.t)
    (tokens : list string) : parse_result :=
  match tokens with
  | [] => Parsed c
  | option :: rest =>
      match rest with
      | next :: rest' =>
          if has_argument next then
            match apply_option stoi c option next with
            | Parsed c' => parse_loop stoi c' rest'
            | r => r
            end
          else
            match apply_option stoi c option "" with
            | Parsed c' => parse_loop stoi c' rest
            | r => r
            end
      | [] =>
          match apply_option stoi c option "" with
          | Parsed c' => parse_loop stoi c' rest
          | r => r
          end
      end
  end.

(** [parseCommandLine(argv)]; [argv] lists the strings before the
    terminating null pointer, the program name first. *)
Definition parseCommandLine (stoi : string → option Z) (c : conf_t.t)
    (argv : list string) : parse_result :=
  match argv with
  | [] => BadArgv
  | _ :: tokens => parse_loop stoi c tokens
  end.

(** * Vocabulary of the specification *)

(** ** Reading the log *)

(** The descriptors written to, the descriptors closed, the results of
    [open] and the readiness polls (by their [nfds]) in a stretch of the log. *)
Definition writes_of (l : list event) : list Z :=
  omap (λ e, match e with EvWrite fd _ => Some fd | _ => None end) l.

Definition closes_of (l : list event) : list Z :=
  omap (λ e, match e with EvClose fd => Some fd | _ => None end) l.

(** The names [remove] was called on in a stretch of the log. *)
Definition removes_of (l : list event) : list string :=
  omap (λ e, match e with EvRemove name => Some name | _ => None end) l.

Definition opens_of (l : list event) : list Z :=
  omap (λ e, match e with EvOpen _ _ fd => Some fd | _ => None end) l.

Definition polls_of (l : list event) : list Z :=
  omap (λ e, match e with EvSelect nfds _ _ _ => Some nfds | _ => None end) l.

(** The values stored to the hardware registers in a stretch of the log. *)
Definition stores_of (l : list event) : list (reg * Z) :=
  omap (λ e, match e with EvStore r v => Some (r, v) | _ => None end) l.

(** A computation only ever appends to the log. *)
Definition grows {A} (m : M A) : Prop :=
  ∀ s, ∃ evs, log (world (final (m s))) = log (world s) ++ evs.

(** Whatever else a computation does, it first does [e]. *)
Definition leads {A} (e : event) (m : M A) : Prop :=
  ∀ s, ∃ evs, log (world (final (m s))) = log (world s) ++ e :: evs.

(** ** Channels *)

(** Channel [j] is in place: slot [j] holds a descriptor that is open on the
    FIFO named [pipe_name path j], which exists, and [highestFD_] bounds it. *)
Definition chan_ok (path : string) (s : State) (j : Z) : Prop :=
  ∃ fd, fd_ (obj s) !! Z.to_nat j = Some fd ∧
        0 ≤ fd ≤ highestFD_ (obj s) ∧
        fdtable (world s) !! Z.to_nat fd = Some (Some (pipe_name path j)) ∧
        pipe_name path j ∈ files (world s).

(** The name the descriptor of channel [i] is open on. *)
Definition channel_name (s : State) (i : Z) : option string :=
  match fd_ (obj s) !! Z.to_nat i with
  | Some fd =>
      if bool_decide (0 ≤ fd) then
        match fdtable (world s) !! Z.to_nat fd with
        | Some (Some name) => Some name
        | _ => None
        end
      else None
  | None => None
  end.

(** The slots [i], [i+1], ..., [i+n-1] of the descriptor array. *)
Definition slots (d : CDistributor) (i : Z) (n : nat) : list Z :=
  take n (drop (Z.to_nat i) (fd_ d)).

(** Bit [i] of the bitmap, the way [distribute] tests it. *)
Definition bit_set (irqSources i : Z) : bool :=
  negb (Z.land irqSources (shl_int 1 i) =? 0).

(** The descriptors [distribute] pulses, in order: those of the channels
    from index [i] on whose bit is set and that the poll reported ready. *)
Fixpoint pulses (fds : list Z) (i : Z) (irqSources : Z) (ready : gset Z) : list Z :=
  match fds with
  | [] => []
  | fd :: fds' =>
      (if bit_set irqSources i && FD_ISSET fd ready then [fd] else [])
      ++ pulses fds' (i + 1) irqSources ready
  end.

(** ** Teardown *)

(** The names [cleanup] sweeps: [path] followed by [i], [i+1], ... *)
Fixpoint names_from (path : string) (i : Z) (todo : nat) : list string :=
  match todo with
  | O => []
  | S todo' => pipe_name path i :: names_from path (i + 1) todo'
  end.

(** The names [cleanup] calls [remove] on. *)
Definition swept (d : CDistributor) : list string :=
  if bool_decide (path_ d = "") then []
  else names_from (path_ d) 0 (Z.to_nat MAX_IRQS).

(** The descriptor table after closing every descriptor of [fds] other
    than -1. *)
Fixpoint close_all (fds : list Z) (t : list (option string)) : list (option string) :=
  match fds with
  | [] => t
  | fd :: fds' => close_all fds' (if fd =? -1 then t else close_slot fd t)
  end.

(** The array after its slots [i], ..., [i+todo-1] were set to -1. *)
Fixpoint wipe (todo : nat) (i : nat) (l : list Z) : list Z :=
  match todo with
  | O => l
  | S todo' => wipe todo' (S i) (<[i := -1]> l)
  end.

(** The state [cleanup] leaves behind, in closed form. *)
Definition after_cleanup (s : State) : State :=
  let d := obj s in
  let w := world s in
  let n := Z.to_nat (irqCount_ d) in
  let fds := slots d 0 n in
  let names := swept d in
  mkState (set_fd (wipe n 0 (fd_ d)) d)
    (set_log (log w ++ map EvClose (filter (λ fd, fd ≠ -1) fds) ++ map EvRemove names)
       (set_files (files w ∖ list_to_set (filter (λ x, remove_ok w x = true) names))
          (set_fdtable (close_all fds (fdtable w)) w))).


(** The array [fd_] has its [MAX_IRQS] slots. *)
Definition array_ok (d : CDistributor) : Prop :=
  length (fd_ d) = Z.to_nat MAX_IRQS.

(** What [cleanup] needs for its behaviour to be defined: the array in
    place, a count within the array, and names that fit the 256-byte buffer
    with two digits appended. *)
Definition teardown_ready (d : CDistributor) : Prop :=
  array_ok d ∧ irqCount_ d ≤ MAX_IRQS ∧ (String.length (path_ d) ≤ 253)%nat.


(** ** Concrete worlds to run the code in *)

(** An empty directory, the three standard descriptors open, a system that
    refuses nothing and FIFOs that are all writable. *)
Definition demo_world : World :=
  mkWorld ∅ [Some "stdin"; Some "stdout"; Some "stderr"]
    (λ _, true) (λ _, true) (λ _, true) (λ _, true) [].

Definition demo_state : State := mkState (CDistributor_new 0) demo_world.

Definition demo_after_init (irqCount : Z) : State :=
  final (init "." irqCount demo_state).

(** A world in which a previous run with more sources has left FIFOs behind
    and in which the FIFO of source 1 cannot be created. *)
Definition stale_world : World :=
  mkWorld {["./interrupt0"; "./interrupt1"; "./interrupt7"; "./interrupt31"]}
    [Some "stdin"; Some "stdout"; Some "stderr"]
    (λ name, bool_decide (name ≠ "./interrupt1")) (λ _, true) (λ _, true) (λ _, true) [].

Definition stale_state : State := mkState (CDistributor_new 0) stale_world.

(** [init] for three sources gives up at source 1. *)
Definition partial_state : State := final (init "." 3 stale_state).

(** A machine with the UIO device 0 present. *)
Definition uio_world : World :=
  mkWorld {["/dev/uio0"; "/sys/class/uio/uio0/device/config"]}
    [Some "stdin"; Some "stdout"; Some "stderr"]
    (λ _, true) (λ _, true) (λ _, true) (λ _, true) [].

(** A directory in which the name of source 7 is taken by something the
    process cannot remove (a directory that is not empty); nothing else is
    refused. *)
Definition occupied_world : World :=
  mkWorld {["./interrupt7"]} [Some "stdin"; Some "stdout"; Some "stderr"]
    (λ _, true) (λ _, true) (λ name, bool_decide (name ≠ "./interrupt7")) (λ _, true) [].

Definition occupied_state : State := mkState (CDistributor_new 0) occupied_world.

(** ** The life of the channels *)

(** The system lets the process replace whatever has the name [name] by a
    FIFO and open it: the name is free or can be removed, and the FIFO can
    be created and opened. *)
Definition permitted (w : World) (name : string) : bool :=
  (bool_decide (name ∉ files w) || remove_ok w name)
  && mkfifo_ok w name && open_ok w name.

(** The system answers in [w'] as it does in [w]. *)
Definition same_oracles (w w' : World) : Prop :=
  mkfifo_ok w' = mkfifo_ok w ∧ open_ok w' = open_ok w ∧ writable w' = writable w ∧
  remove_ok w' = remove_ok w.

(** Descriptor [k] is open. *)
Definition is_open (t : list (option string)) (k : nat) : Prop :=
  ∃ name, t !! k = Some (Some name).


(** ** The monitor loop *)

(** The state [s] with [evs] appended to its log. *)
Definition logged (s : State) (evs : list event) : State :=
  mkState (obj s) (set_log (log (world s) ++ evs) (world s)).

(** The register loads and the [pwrite] calls (descriptor, byte, offset) in
    a stretch of the log. *)
Definition loads_of (l : list event) : list (reg * Z) :=
  omap (λ e, match e with EvLoad r v => Some (r, v) | _ => None end) l.

Definition pwrites_of (l : list event) : list (Z * Z * Z) :=
  omap (λ e, match e with EvPwrite fd byte off _ => Some (fd, byte, off) | _ => None end) l.

(** What [distribute] needs for its behaviour to be defined: a count within
    the array and, in the slots below the count, descriptors an [fd_set]
    can take. *)
Definition fanout_ready (d : CDistributor) : Prop :=
  irqCount_ d ≤ MAX_IRQS ∧
  (Z.to_nat (irqCount_ d) ≤ length (fd_ d))%nat ∧
  Forall (λ fd, 0 ≤ fd < FD_SETSIZE) (slots d 0 (Z.to_nat (irqCount_ d))).

(** The acknowledgement a pass of the monitor loop owes for the status it
    loads: none for a status of zero. *)
Definition ack_of (p : uio_pass) : option (reg * Z) :=
  if wrap_u32 (status p) =? 0 then None else Some (ImReg1, wrap_u32 (status p)).

(** A pass whose [pwrite] and [read] both succeed. *)
Definition pass_ok (p : uio_pass) : Prop := pwrite_ret p = 1 ∧ read_ret p = 4.

(** ** What a computation may do *)

(** The computation leaves the distributor object as it is and appends to
    the log only events that satisfy [P]. *)
Definition observes {A} (P : event → Prop) (m : M A) : Prop :=
  ∀ s, ∃ evs,
    obj (final (m s)) = obj s ∧
    log (world (final (m s))) = log (world s) ++ evs ∧ Forall P evs.

(** The computation does not return to its caller: it blocks, runs into
    undefined behaviour or ends the process, and then with exit code 1. *)
Definition halts {A} (m : M A) : Prop :=
  ∀ s, match m s with Returned _ _ => False | Exited c _ => c = 1 | _ => True end.

(** If the computation ends the process, the exit code is 1. *)
Definition exits_1 {A} (m : M A) : Prop :=
  ∀ s, match m s with Exited c _ => c = 1 | _ => True end.

(** The events of the monitor: every [pwrite] goes to offset 5 and carries
    the byte [b]. *)
Definition rearms_with (b : Z) (e : event) : Prop :=
  match e with
  | EvPwrite _ byte off _ => byte = b ∧ off = 5
  | _ => True
  end.

(** The computation changes nothing but the log, to which it appends only
    events that satisfy [P]. *)
Definition traces {A} (P : event → Prop) (m : M A) : Prop :=
  ∀ s, ∃ evs, final (m s) = logged s evs ∧ Forall P evs.

(** ** The self-test thread *)

(** What the loop of [selfTest] may do: print, store to the register it was
    given, read one byte. *)
Definition loop_event (imReg0 : reg) (e : event) : Prop :=
  match e with
  | EvPrintf Stdout _ _ => True
  | EvStore r _ => r = imReg0
  | EvRead _ count _ => count = 1
  | _ => False
  end.

(** What [selfTest] as a whole may do: the above, open a FIFO for reading,
    and report a FIFO it could not open. *)
Definition selfTest_event (imReg0 : reg) (e : event) : Prop :=
  match e with
  | EvPrintf _ _ _ => True
  | EvStore r _ => r = imReg0
  | EvRead _ count _ => count = 1
  | EvOpen _ flags _ => flags = O_RDONLY
  | _ => False
  end.

(** ** The end of the process *)


(** ** The command line *)

(** The six option names. *)
Definition option_names : list string :=
  ["-device"; "-dir"; "-vectors"; "-axi"; "-selftest"; "-verbose"].

(** [b] can follow another command line: it is empty or starts with a
    token that is not taken for an argument. *)
Definition starts_afresh (b : list string) : Prop :=
  match b with
  | [] => True
  | t :: _ => has_argument t = false
  end.

(** A [std::stoi] for the examples: decimal numbers of one digit. *)
Definition stoi_digit (s : string) : option Z :=
  match s with
  | String c EmptyString =>
      let n := Z.of_nat (Ascii.nat_of_ascii c) - 48 in
      if bool_decide (0 ≤ n ≤ 9) then Some n else None
  | _ => None
  end.

Definition conf_default : conf_t.t :=
  conf_t.mk "10ee:903f" "." 1 16384 false false.

(** What a parse that returns has done to the configuration, in terms of
    the option names that occur. *)
Definition fields_follow (stoi : string → option Z) (tokens : list string)
    (c c' : conf_t.t) : Prop :=
  ("-device" ∉ tokens → conf_t.device c' = conf_t.device c) ∧
  ("-dir" ∉ tokens → conf_t.dirName c' = conf_t.dirName c) ∧
  ("-vectors" ∉ tokens → conf_t.irqCount c' = conf_t.irqCount c) ∧
  ("-vectors" ∈ tokens → ∃ arg, stoi arg = Some (conf_t.irqCount c')) ∧
  ("-axi" ∉ tokens → conf_t.axiAddr c' = conf_t.axiAddr c) ∧
  ("-axi" ∈ tokens → 0 ≤ conf_t.axiAddr c' < 2 ^ 32) ∧
  (conf_t.selfTest c' = true ↔ conf_t.selfTest c = true ∨ "-selftest" ∈ tokens) ∧
  (conf_t.verbose c' = true ↔ conf_t.verbose c = true ∨ "-verbose" ∈ tokens).

(** A process that already holds the descriptors 0 .. 1023. *)
Definition crowded_state : State :=
  mkState (CDistributor_new 0)
    (mkWorld ∅ (replicate 1024 (Some "held"))
       (λ _, true) (λ _, true) (λ _, true) (λ _, true) []).

(** * Verification *)

Local Close Scope prog_scope.

(** ** Names *)

(** The FIFO names of one root differ with the index. *)
Lemma pipe_name_inj path i j : pipe_name path i = pipe_name path j → i = j.
Proof.
  unfold pipe_name. intros H.
  apply (inj (String.app path)) in H.
  by apply (inj pretty) in H.
Qed.

Lemma string_app_length (s1 s2 : string) :
  String.length (s1 +:+ s2) = (String.length s1 + String.length s2)%nat.
Proof. induction s1 as [|c s1 IH]; simpl; [done|by rewrite IH]. Qed.

Lemma pipe_name_length path i :
  String.length (pipe_name path i) = (String.length path + String.length (pretty i))%nat.
Proof. apply string_app_length. Qed.

(** An index below [MAX_IRQS] prints in two characters at most. *)
Lemma two_digits i : 0 ≤ i < MAX_IRQS → (String.length (pretty i) ≤ 2)%nat.
Proof.
  intros Hi.
  assert (Hall : forallb (λ n, Nat.leb (String.length (pretty (Z.of_nat n))) 2)
                   (seq 0 32) = true) by (vm_compute; reflexivity).
  rewrite forallb_forall in Hall.
  specialize (Hall (Z.to_nat i)).
  rewrite Z2Nat.id in Hall by lia.
  apply Nat.leb_le, Hall, in_seq. unfold MAX_IRQS in Hi. lia.
Qed.

(** ** Bits *)

(** [1 << i] on [int]: a power of two, and the sign bit for [i = 31]. *)
Lemma shl_int_small i : 0 ≤ i < 31 → shl_int 1 i = 2 ^ i.
Proof.
  intros Hi. unfold shl_int, wrap_int. rewrite Z.shiftl_1_l.
  assert (0 < 2 ^ i < 2 ^ 31).
  { split; [apply Z.pow_pos_nonneg; lia|apply Z.pow_lt_mono_r; lia]. }
  rewrite Z.mod_small by lia. lia.
Qed.

Lemma shl_int_31 : shl_int 1 31 = - 2 ^ 31.
Proof. reflexivity. Qed.

(** Converted to [uint32_t], [1 << irq] is [2 ^ irq] for all 32 sources. *)
Lemma shl_u32 irq : 0 ≤ irq < 32 → wrap_u32 (shl_int 1 irq) = 2 ^ irq.
Proof.
  intros Hirq. destruct (decide (irq = 31)) as [->|Hne]; [reflexivity|].
  rewrite shl_int_small by lia. unfold wrap_u32.
  apply Z.mod_small. split; [apply Z.pow_nonneg; lia|apply Z.pow_lt_mono_r; lia].
Qed.

(** The test [irqSources & 1 << i] of [distribute] reads bit [i] of the
    bitmap. *)
Lemma bit_set_testbit irqSources i :
  - 2 ^ 31 ≤ irqSources < 2 ^ 31 → 0 ≤ i < 32 →
  bit_set irqSources i = Z.testbit irqSources i.
Proof.
  intros Hb Hi. unfold bit_set.
  destruct (decide (i = 31)) as [->|Hne].
  - rewrite shl_int_31.
    replace (- 2 ^ 31) with (Z.lnot (Z.ones 31)) by reflexivity.
    change (Z.land irqSources (Z.lnot (Z.ones 31))) with (Z.ldiff irqSources (Z.ones 31)).
    rewrite Z.ldiff_ones_r by lia.
    rewrite Z.testbit_odd, Z.shiftl_mul_pow2, Z.shiftr_div_pow2 by lia.
    assert (irqSources `div` 2 ^ 31 = 0 ∨ irqSources `div` 2 ^ 31 = -1) as [->| ->].
    { assert (-1 ≤ irqSources `div` 2 ^ 31 < 1); [|lia].
      split; [apply Z.div_le_lower_bound; lia|apply Z.div_lt_upper_bound; lia]. }
    + reflexivity.
    + reflexivity.
  - rewrite shl_int_small by lia.
    destruct (Z.testbit irqSources i) eqn:Hbit.
    + apply negb_true_iff, Z.eqb_neq. intros H0.
      assert (Z.testbit (Z.land irqSources (2 ^ i)) i = true).
      { rewrite Z.land_spec, Hbit, Z.pow2_bits_true by lia. done. }
      rewrite H0, Z.bits_0 in H. done.
    + apply negb_false_iff, Z.eqb_eq, Z.bits_inj'. intros n Hn.
      rewrite Z.land_spec, Z.bits_0.
      destruct (decide (n = i)) as [->|Hni].
      * by rewrite Hbit.
      * rewrite (Z.pow2_bits_false i n) by lia. apply andb_false_r.
Qed.

(** The [int] handed to [distribute] by the monitor loop has the bits of the
    [uint32_t] read from the status register. *)
Lemma wrap_int_range x : - 2 ^ 31 ≤ wrap_int x < 2 ^ 31.
Proof.
  unfold wrap_int. pose proof (Z.mod_pos_bound (x + 2 ^ 31) (2 ^ 32)). lia.
Qed.

Lemma wrap_int_testbit x i : 0 ≤ i < 32 → Z.testbit (wrap_int x) i = Z.testbit x i.
Proof.
  intros Hi.
  rewrite <- (Z.mod_pow2_bits_low (wrap_int x) 32 i) by lia.
  rewrite <- (Z.mod_pow2_bits_low x 32 i) by lia.
  f_equal. unfold wrap_int.
  rewrite Zminus_mod_idemp_l. f_equal. lia.
Qed.

Lemma bit_set_status status i :
  0 ≤ i < 32 → bit_set (wrap_int status) i = Z.testbit status i.
Proof.
  intros Hi. rewrite bit_set_testbit by (apply wrap_int_range || done).
  by apply wrap_int_testbit.
Qed.

(** ** The log *)

(** Appending to the log twice. *)
Lemma set_log_app w evs evs' :
  set_log (log (set_log (log w ++ evs) w) ++ evs') (set_log (log w ++ evs) w)
  = set_log (log w ++ evs ++ evs') w.
Proof. unfold set_log. cbn. by rewrite app_assoc. Qed.

Lemma emit_set_log w evs e :
  emit e (set_log (log w ++ evs) w) = set_log (log w ++ evs ++ [e]) w.
Proof. unfold emit. apply set_log_app. Qed.

(** A run of one-byte writes, read back from the log. *)
Lemma writes_of_pulses (fds : list Z) :
  writes_of (map (λ fd, EvWrite fd "X") fds) = fds.
Proof. induction fds as [|fd fds IH]; cbn; [done|]. f_equal. apply IH. Qed.

Lemma stores_of_app l l' : stores_of (l ++ l') = stores_of l ++ stores_of l'.
Proof. apply omap_app. Qed.

(** ** Log growth *)

(** The pieces programs are built from grow the log. *)
Lemma grows_ret {A} (a : A) : grows (ret a).
Proof. intros s. exists []. cbn. by rewrite app_nil_r. Qed.

Lemma grows_bind {A B} (m : M A) (k : A → M B) :
  grows m → (∀ a, grows (k a)) → grows (bind m k).
Proof.
  intros Hm Hk s. destruct (Hm s) as [evs Hevs]. unfold bind.
  destruct (m s) as [a s'| | |]; cbn in Hevs; try (by exists evs).
  destruct (Hk a s') as [evs' Hevs']. exists (evs ++ evs').
  by rewrite Hevs', Hevs, app_assoc.
Qed.

Lemma grows_silent {A} (m : M A) : (∀ s, world (final (m s)) = world s) → grows m.
Proof. intros H s. exists []. by rewrite H, app_nil_r. Qed.

Lemma grows_trace e : grows (trace e).
Proof. intros s. by exists [e]. Qed.

Lemma grows_if {A} (b : bool) (m1 m2 : M A) :
  grows m1 → grows m2 → grows (if b then m1 else m2).
Proof. by destruct b. Qed.

Lemma grows_load_fd i : grows (load_fd i).
Proof.
  apply grows_silent. intros s. unfold load_fd.
  case_bool_decide; [|done]. by destruct (_ !! _).
Qed.

Lemma grows_FD_SET fd set : grows (FD_SET fd set).
Proof. apply grows_silent. intros s. unfold FD_SET. by case_bool_decide. Qed.

Lemma grows_sys_select nfds wfds timeout : grows (sys_select nfds wfds timeout).
Proof. intros s. by eexists [_]. Qed.

Lemma grows_get {A} (f : CDistributor → A) : grows (get f).
Proof. by apply grows_silent. Qed.

Lemma grows_act_emit e f :
  (∀ w, log (f w) = log w) → grows (act (λ w, emit e (f w))).
Proof. intros Hf s. exists [e]. cbn. by rewrite Hf. Qed.

Lemma grows_modify f : grows (modify f).
Proof. by apply grows_silent. Qed.

Lemma grows_store_fd i v : grows (store_fd i v).
Proof. apply grows_silent. intros s. unfold store_fd. by case_bool_decide. Qed.

Lemma grows_sys_mkfifo name mode : grows (sys_mkfifo name mode).
Proof. intros s. unfold sys_mkfifo. destruct (_ && _); by eexists [_]. Qed.

Lemma grows_sys_open name flags : grows (sys_open name flags).
Proof. intros s. unfold sys_open. destruct (_ && _); by eexists [_]. Qed.

Lemma grows_sprintf cap text : grows (sprintf cap text).
Proof. apply grows_silent. intros s. unfold sprintf. by case_bool_decide. Qed.

Lemma grows_sys_remove name : grows (sys_remove name).
Proof.
  intros s. exists [EvRemove name]. unfold sys_remove, act. cbn.
  by destruct (remove_ok (world s) name).
Qed.

Create HintDb grows.
#[local] Hint Resolve grows_ret grows_bind grows_trace grows_if grows_get
  grows_modify grows_load_fd grows_store_fd grows_FD_SET grows_sprintf
  grows_sys_remove grows_sys_mkfifo grows_sys_open grows_sys_select : grows.

(** Programs built from growing pieces with [bind] and [if] grow. *)
Ltac grows_step :=
  lazymatch goal with
  | |- grows (bind _ _) => apply grows_bind; [|intros ?]
  | |- grows (if _ then _ else _) => apply grows_if
  | |- grows _ => solve [auto with grows]
  end.
Ltac solve_grows := cbn beta; repeat (grows_step; cbn beta).

Lemma leads_bind {A B} e (m : M A) (k : A → M B) :
  leads e m → (∀ a, grows (k a)) → leads e (bind m k).
Proof.
  intros Hm Hk s. destruct (Hm s) as [evs Hevs]. unfold bind.
  destruct (m s) as [a s'| | |]; cbn in Hevs; try (by exists evs).
  destruct (Hk a s') as [evs' Hevs']. exists (evs ++ evs').
  by rewrite Hevs', Hevs, <- app_assoc.
Qed.

(** ** The descriptor table *)

(** The slot [open] picks is free, and stays with its name once taken. *)
Lemma first_free_le t : (first_free t ≤ length t)%nat.
Proof. induction t as [|[x|] t IH]; simpl; lia. Qed.

Lemma first_free_None t :
  (first_free t < length t)%nat → t !! first_free t = Some None.
Proof. induction t as [|[x|] t IH]; simpl; intros H; [lia | apply IH; lia | done]. Qed.

Lemma alloc_fd_new name t : alloc_fd name t !! first_free t = Some (Some name).
Proof.
  unfold alloc_fd. case_bool_decide as H.
  - by apply list_lookup_insert_eq.
  - assert (first_free t = length t) as -> by (pose proof (first_free_le t); lia).
    rewrite lookup_app_r by lia. by rewrite Nat.sub_diag.
Qed.

Lemma alloc_fd_old name t k x :
  t !! k = Some (Some x) → alloc_fd name t !! k = Some (Some x).
Proof.
  intros Hk. unfold alloc_fd. case_bool_decide as H.
  - rewrite list_lookup_insert_ne; [done|].
    intros <-. rewrite first_free_None in Hk by done. congruence.
  - apply lookup_app_l_Some, Hk.
Qed.

(** ** createPipe *)

(** Every way [createPipe] can end. *)
Lemma createPipe_spec path i s :
  match createPipe path i s with
  | Returned fd s' =>
      obj s' = obj s ∧
      ((fd = -1 ∧ fdtable (world s') = fdtable (world s)) ∨
       (fd = Z.of_nat (first_free (fdtable (world s))) ∧
        fdtable (world s') = alloc_fd (pipe_name path i) (fdtable (world s)) ∧
        files (world s') =
          {[pipe_name path i]} ∪ files (world s) ∖ {[pipe_name path i]}))
  | Undefined f s' => f = BufferOverrun ∧ s' = s
  | _ => False
  end.
Proof.
  unfold createPipe, sprintf_name, sprintf, bind.
  case_bool_decide as Hlen; [|done].
  unfold ret at 1, sys_remove, act.
  destruct (remove_ok (world s) (pipe_name path i)) eqn:Hrm;
    cbn -[pipe_name]; unfold sys_mkfifo; cbn -[pipe_name]; rewrite ?Hrm.
  - rewrite bool_decide_eq_true_2 by set_solver.
    destruct (mkfifo_ok (world s) (pipe_name path i)); cbn -[pipe_name].
    + unfold sys_open. cbn -[pipe_name].
      rewrite bool_decide_eq_true_2 by set_solver.
      destruct (open_ok (world s) (pipe_name path i)); cbn -[pipe_name].
      * destruct (Z.ltb_spec (Z.of_nat (first_free (fdtable (world s)))) 0) as [?|_];
          [lia|]. cbn -[pipe_name]. split; [done|]. right. done.
      * split; [done|]. by left.
    + split; [done|]. by left.
  - case_bool_decide as Hfree; cbn -[pipe_name]; [|split; [done|]; by left].
    destruct (mkfifo_ok (world s) (pipe_name path i)); cbn -[pipe_name].
    + unfold sys_open. cbn -[pipe_name].
      rewrite bool_decide_eq_true_2 by set_solver.
      destruct (open_ok (world s) (pipe_name path i)); cbn -[pipe_name].
      * destruct (Z.ltb_spec (Z.of_nat (first_free (fdtable (world s)))) 0) as [?|_];
          [lia|]. cbn -[pipe_name]. split; [done|]. right.
        split_and!; [done..|]. set_solver.
      * split; [done|]. by left.
    + split; [done|]. by left.
Qed.

(** [createPipe] appends to the log, beginning with the removal of the name. *)
Lemma grows_createPipe path n : grows (createPipe path n).
Proof. unfold createPipe, sprintf_name, fprintf. solve_grows. Qed.

#[local] Hint Resolve grows_createPipe : grows.

Lemma leads_createPipe path n :
  (String.length (pipe_name path n) < 256)%nat →
  leads (EvRemove (pipe_name path n)) (createPipe path n).
Proof.
  intros Hfit. unfold createPipe, sprintf_name, sprintf, fprintf.
  rewrite bool_decide_eq_true_2 by lia.
  intros s. unfold bind at 1, ret at 1. revert s.
  apply leads_bind; [|intros ?; solve_grows].
  intros s. exists []. unfold sys_remove, act. cbn.
  by destruct (remove_ok (world s) (pipe_name path n)).
Qed.

(** ** init *)

(** One iteration of the loop of [init], spelled out. *)
Lemma init_loop_step todo i s :
  init_loop (S todo) i s =
  match createPipe (path_ (obj s)) i s with
  | Returned fd s1 =>
      if bool_decide (0 ≤ i < MAX_IRQS ∧ (Z.to_nat i < length (fd_ (obj s1)))%nat) then
        let s2 := mkState (set_fd (<[Z.to_nat i := fd]> (fd_ (obj s1))) (obj s1)) (world s1) in
        if fd =? -1 then Returned false s2
        else init_loop todo (i + 1)
               (if highestFD_ (obj s2) <? fd
                then mkState (set_highestFD fd (obj s2)) (world s2) else s2)
      else Undefined ArrayOverrun s1
  | Exited c s1 => Exited c s1
  | Undefined f s1 => Undefined f s1
  | Blocked s1 => Blocked s1
  end.
Proof.
  cbn [init_loop]. unfold bind at 1. unfold get at 1. unfold bind at 1.
  destruct (createPipe (path_ (obj s)) i s) as [fd s1| | |]; try done.
  unfold bind at 1. unfold store_fd at 1.
  case_bool_decide as Hi; [|done].
  unfold bind at 1. unfold load_fd at 1. cbn [obj world set_fd fd_].
  rewrite bool_decide_eq_true_2 by tauto.
  rewrite list_lookup_insert_eq by tauto.
  destruct (fd =? -1); [done|].
  unfold bind at 1. unfold get at 1. unfold bind at 1.
  cbn [obj world set_fd fd_ highestFD_].
  destruct (highestFD_ (obj s1) <? fd); done.
Qed.

(** What the loop of [init] leaves alone. *)
Lemma init_loop_frame todo : ∀ i s b s',
  init_loop todo i s = Returned b s' →
  length (fd_ (obj s')) = length (fd_ (obj s)) ∧
  irqCount_ (obj s') = irqCount_ (obj s) ∧
  path_ (obj s') = path_ (obj s) ∧
  (b = true → todo = O ∨ i + Z.of_nat todo ≤ MAX_IRQS).
Proof.
  induction todo as [|todo IH]; intros i s b s' Hrun.
  - cbn in Hrun. injection Hrun as <- <-. auto.
  - rewrite init_loop_step in Hrun.
    pose proof (createPipe_spec (path_ (obj s)) i s) as Hcp.
    destruct (createPipe (path_ (obj s)) i s) as [fd s1| | |]; try done.
    destruct Hcp as [Hobj _].
    case_bool_decide as Hi; [|done].
    cbn zeta in Hrun. destruct (fd =? -1).
    + injection Hrun as <- <-. cbn. rewrite length_insert, Hobj. done.
    + apply IH in Hrun as (Hlen & Hcnt & Hpath & Hb).
      rewrite Hlen, Hcnt, Hpath.
      destruct (highestFD_ _ <? fd); cbn; rewrite length_insert, Hobj;
        (split_and!; [done..|]); intros Hb'; right;
        destruct (Hb Hb') as [->|?]; lia.
Qed.

(** The channels created so far stay in place while the loop goes on. *)
Lemma init_loop_chans todo : ∀ i s s',
  0 ≤ i →
  (∀ j, 0 ≤ j < i → chan_ok (path_ (obj s)) s j) →
  init_loop todo i s = Returned true s' →
  ∀ j, 0 ≤ j < i + Z.of_nat todo → chan_ok (path_ (obj s)) s' j.
Proof.
  induction todo as [|todo IH]; intros i s s' Hi0 Hold Hrun j Hj.
  - cbn in Hrun. injection Hrun as <-. apply Hold. lia.
  - rewrite init_loop_step in Hrun.
    pose proof (createPipe_spec (path_ (obj s)) i s) as Hcp.
    destruct (createPipe (path_ (obj s)) i s) as [fd s1| | |]; try done.
    destruct Hcp as [Hobj Hcase].
    case_bool_decide as Hi; [|done].
    cbn zeta in Hrun.
    destruct (Z.eqb_spec fd (-1)) as [->|Hfd]; [done|].
    destruct Hcase as [[? _]|(Hfdv & Htab & Hfiles)]; [done|].
    set (s3 := if highestFD_ _ <? fd then _ else _) in Hrun.
    assert (Hpath3 : path_ (obj s3) = path_ (obj s)).
    { subst s3. destruct (highestFD_ _ <? fd); cbn; by rewrite Hobj. }
    rewrite <- Hpath3. eapply (IH (i + 1) s3 s'); [lia| |done|lia].
    rewrite Hpath3. clear j Hj Hrun IH. intros j Hj.
    assert (Hfd3 : fd_ (obj s3) = <[Z.to_nat i := fd]> (fd_ (obj s))).
    { subst s3. destruct (highestFD_ _ <? fd); cbn; by rewrite Hobj. }
    assert (Hh3 : highestFD_ (obj s) ≤ highestFD_ (obj s3) ∧ fd ≤ highestFD_ (obj s3)).
    { subst s3. destruct (Z.ltb_spec (highestFD_
        (obj (mkState (set_fd (<[Z.to_nat i:=fd]> (fd_ (obj s1))) (obj s1)) (world s1)))) fd)
        as [Hlt|Hge]; cbn in *; rewrite Hobj in *; lia. }
    assert (Hw3 : world s3 = world s1).
    { subst s3. by destruct (highestFD_ _ <? fd). }
    destruct (decide (j = i)) as [->|Hne].
    + exists fd. rewrite Hfd3, Hw3, Htab, Hfiles.
      split_and!; [|lia|lia| |set_solver].
      * apply list_lookup_insert_eq. rewrite <- Hobj. tauto.
      * rewrite Hfdv, Nat2Z.id. apply alloc_fd_new.
    + destruct (Hold j) as (fd' & Hslot & Hrange & Hopen & Hfile); [lia|].
      exists fd'. rewrite Hfd3, Hw3, Htab, Hfiles.
      split_and!; [|lia|lia| |].
      * rewrite list_lookup_insert_ne by lia. done.
      * by apply alloc_fd_old.
      * assert (pipe_name (path_ (obj s)) j ≠ pipe_name (path_ (obj s)) i)
          by (intros Heq; by apply pipe_name_inj in Heq).
        set_solver.
Qed.

(** [init] on its return: the count and the path are recorded. *)
Lemma init_returned dir irqCount s b s' :
  init dir irqCount s = Returned b s' →
  length (fd_ (obj s')) = length (fd_ (obj s)) ∧
  irqCount_ (obj s') = irqCount ∧
  path_ (obj s') = dir +:+ "/interrupt" ∧
  (b = true → irqCount ≤ MAX_IRQS).
Proof.
  unfold init, bind, modify. cbn [obj world].
  intros Hrun. apply init_loop_frame in Hrun as (Hlen & Hcnt & Hpath & Hb).
  cbn in Hlen, Hcnt, Hpath. split_and!; [done..|].
  intros Hb'. destruct (Hb Hb') as [H0|Hle]; unfold MAX_IRQS in *; lia.
Qed.

(** [init] on success: every configured channel is in place. *)
Lemma init_channels dir irqCount s s' :
  init dir irqCount s = Returned true s' →
  ∀ j, 0 ≤ j < irqCount → chan_ok (dir +:+ "/interrupt") s' j.
Proof.
  unfold init, bind, modify. cbn [obj world].
  intros Hrun j Hj.
  eapply init_loop_chans in Hrun; [exact Hrun|lia| |lia].
  intros j' Hj'. lia.
Qed.

Lemma chan_ok_name path s j : chan_ok path s j → channel_name s j = Some (pipe_name path j).
Proof.
  intros (fd & Hslot & Hrange & Hopen & _). unfold channel_name.
  rewrite Hslot, bool_decide_eq_true_2 by lia. by rewrite Hopen.
Qed.

Lemma grows_init_loop todo : ∀ i, grows (init_loop todo i).
Proof.
  induction todo as [|todo IH]; intros i; cbn [init_loop]; [auto with grows|].
  pose proof (IH (i + 1)). solve_grows.
Qed.

#[local] Hint Resolve grows_init_loop : grows.

(** ** Counts beyond MAX_IRQS (C1) *)

(** C1: [init] has no check of the count.  With 33 sources in a directory
    where nothing fails it does not report a failure: it creates and opens
    the FIFOs 0..32 and then stores past the end of [fd_]. *)
Theorem init_33_overruns :
  ∃ s', init "." 33 demo_state = Undefined ArrayOverrun s' ∧
        (∀ i, 0 ≤ i ≤ 32 → pipe_name "./interrupt" i ∈ files (world s')) ∧
        size (files (world s')) = 33%nat ∧
        opens_of (log (world s')) = seqZ 3 33.
Proof.
  exists (final (init "." 33 demo_state)). split_and!.
  - vm_compute. reflexivity.
  - intros i Hi.
    assert (Hall : forallb (λ n, bool_decide
              (pipe_name "./interrupt" (Z.of_nat n)
                 ∈ files (world (final (init "." 33 demo_state))))) (seq 0 33) = true)
      by (vm_compute; reflexivity).
    rewrite forallb_forall in Hall. specialize (Hall (Z.to_nat i)).
    rewrite Z2Nat.id in Hall by lia.
    eapply bool_decide_eq_true_1, Hall, in_seq. lia.
  - vm_compute. reflexivity.
  - vm_compute. reflexivity.
Qed.

(** [init] has no check in front of its loop: for any count above zero, and
    so for any count above [MAX_IRQS], the first thing it does is to call
    [remove] on the name of channel 0, before any failure can be reported. *)
Lemma init_touches_namespace_first dir irqCount :
  0 < irqCount → (String.length dir ≤ 243)%nat →
  leads (EvRemove (pipe_name (dir +:+ "/interrupt") 0)) (init dir irqCount).
Proof.
  intros Hpos Hdir s. unfold init.
  unfold bind at 1, modify at 1. unfold bind at 1, modify at 1.
  unfold bind at 1, modify at 1. cbn [obj world].
  destruct (Z.to_nat irqCount) as [|todo] eqn:Hn; [lia|].
  cbn [init_loop]. unfold bind at 1, get at 1.
  cbn [obj path_ set_path set_irqCount set_highestFD].
  match goal with |- context [bind ?m ?k ?st] =>
    destruct (leads_bind (EvRemove (pipe_name (dir +:+ "/interrupt") 0)) m k) with (s := st)
      as [evs Hevs] end.
  - apply leads_createPipe. rewrite pipe_name_length, string_app_length. cbn. lia.
  - intros fd. pose proof (grows_init_loop todo (0 + 1)). solve_grows.
  - by exists evs.
Qed.

(** ** Channel names (C7) *)

(** C7, as amended: after a successful [init dir irqCount], for every index
    [i] in [0, irqCount) the descriptor of channel [i] is open on the FIFO
    whose name is the directory passed to [init], followed by the fixed text
    "/interrupt", followed by the decimal representation of [i]; that name
    exists in the namespace and no other configured channel has it. *)
Theorem channel_name_after_init dir irqCount s s' :
  init dir irqCount s = Returned true s' →
  ∀ i, 0 ≤ i < irqCount →
    channel_name s' i = Some ((dir +:+ "/interrupt") +:+ pretty i) ∧
    (dir +:+ "/interrupt") +:+ pretty i ∈ files (world s') ∧
    ∀ j, 0 ≤ j < irqCount → channel_name s' j = channel_name s' i → j = i.
Proof.
  intros Hinit i Hi.
  pose proof (init_channels _ _ _ _ Hinit) as Hch.
  pose proof (Hch i Hi) as Hci.
  split_and!.
  - by apply chan_ok_name in Hci.
  - by destruct Hci as (fd & _ & _ & _ & Hfile).
  - intros j Hj. rewrite (chan_ok_name _ _ _ Hci), (chan_ok_name _ _ _ (Hch j Hj)).
    intros [= Heq]. by apply pipe_name_inj in Heq.
Qed.

(** Channel 2 of three channels in the empty directory. *)
Lemma channel_name_after_init_witness :
  channel_name (demo_after_init 3) 2 = Some (("." +:+ "/interrupt") +:+ pretty 2) ∧
  ("." +:+ "/interrupt") +:+ pretty 2 ∈ files (world (demo_after_init 3)) ∧
  ∀ j, 0 ≤ j < 3 →
    channel_name (demo_after_init 3) j = channel_name (demo_after_init 3) 2 → j = 2.
Proof.
  apply (channel_name_after_init "." 3 demo_state (demo_after_init 3)).
  - vm_compute. reflexivity.
  - lia.
Defined.

(** C7 as stated fails: with the root path "." channel 0 is not named ".0"
    but "./interrupt0", and nothing named ".0" exists. *)
Lemma channel_name_is_not_root_then_index :
  init "." 2 demo_state = Returned true (demo_after_init 2) ∧
  channel_name (demo_after_init 2) 0 = Some "./interrupt0" ∧
  channel_name (demo_after_init 2) 0 ≠ Some ("." +:+ pretty 0) ∧
  "." +:+ pretty 0 ∉ files (world (demo_after_init 2)).
Proof.
  split_and!.
  - vm_compute. reflexivity.
  - vm_compute. reflexivity.
  - vm_compute. discriminate.
  - apply (bool_decide_unpack _). vm_compute. exact I.
Qed.

(** ** distribute *)

(** Reading the array slot by slot. *)
Lemma slots_S d i n fd :
  0 ≤ i → fd_ d !! Z.to_nat i = Some fd →
  slots d i (S n) = fd :: slots d (i + 1) n.
Proof.
  intros Hi Hfd. unfold slots.
  rewrite (drop_S _ _ _ Hfd). cbn [take].
  by replace (Z.to_nat (i + 1)) with (S (Z.to_nat i)) by lia.
Qed.

Lemma slots_lookup d n k fd :
  slots d 0 n !! k = Some fd ↔ (k < n)%nat ∧ fd_ d !! k = Some fd.
Proof. unfold slots. cbn [Z.to_nat drop]. rewrite lookup_take_Some. tauto. Qed.

Lemma load_fd_Some i s :
  0 ≤ i < MAX_IRQS → (Z.to_nat i < length (fd_ (obj s)))%nat →
  ∃ fd, fd_ (obj s) !! Z.to_nat i = Some fd ∧ load_fd i s = Returned fd s.
Proof.
  intros Hi Hlen. destruct (lookup_lt_is_Some_2 _ _ Hlen) as [fd Hfd].
  exists fd. split; [done|]. unfold load_fd.
  by rewrite bool_decide_eq_true_2, Hfd.
Qed.

(** The first loop of [distribute] collects the configured descriptors. *)
Lemma fdset_loop_spec todo : ∀ i wfds s,
  0 ≤ i → i + Z.of_nat todo ≤ MAX_IRQS →
  (Z.to_nat i + todo ≤ length (fd_ (obj s)))%nat →
  Forall (λ fd, 0 ≤ fd < FD_SETSIZE) (slots (obj s) i todo) →
  fdset_loop todo i wfds s = Returned (list_to_set (slots (obj s) i todo) ∪ wfds) s.
Proof.
  induction todo as [|todo IH]; intros i wfds s Hi Hmax Hlen Hran.
  - cbn. unfold ret. f_equal. unfold slots. cbn. set_solver.
  - destruct (load_fd_Some i s) as (fd & Hfd & Hload); [lia..|].
    rewrite (slots_S _ _ _ _ Hi Hfd) in Hran |- *.
    apply Forall_cons in Hran as [Hfdr Hran].
    cbn [fdset_loop]. unfold bind at 1. rewrite Hload.
    unfold bind at 1, FD_SET at 1. rewrite bool_decide_eq_true_2 by done.
    unfold ret at 1. rewrite IH; [|lia..|done].
    f_equal. set_solver.
Qed.

(** The second loop of [distribute] writes to the pulsed descriptors. *)
Lemma write_loop_spec irqSources ready todo : ∀ i s evs0,
  0 ≤ i → i + Z.of_nat todo ≤ MAX_IRQS →
  (Z.to_nat i + todo ≤ length (fd_ (obj s)))%nat →
  ∀ w, world s = set_log (log w ++ evs0) w →
  write_loop todo i irqSources ready s
  = Returned tt (mkState (obj s)
      (set_log (log w ++ evs0 ++
          map (λ fd, EvWrite fd "X") (pulses (slots (obj s) i todo) i irqSources ready)) w)).
Proof.
  induction todo as [|todo IH]; intros i s evs0 Hi Hmax Hlen w Hw.
  - cbn. unfold ret. rewrite app_nil_r, <- Hw. by destruct s.
  - destruct (load_fd_Some i s) as (fd & Hfd & Hload); [lia..|].
    rewrite (slots_S _ _ _ _ Hi Hfd).
    cbn [write_loop pulses]. unfold bind at 1. rewrite Hload.
    fold (bit_set irqSources i).
    unfold bind at 1.
    destruct (bit_set irqSources i && FD_ISSET fd ready) eqn:Hc.
    + apply andb_true_iff in Hc as [-> ->]. cbn [negb].
      unfold sys_write, trace, act. cbn [obj world].
      erewrite (IH (i + 1) _ (evs0 ++ [EvWrite fd "X"])); cbn [obj world]; [|lia..|].
      * rewrite map_app. cbn [map app]. by rewrite <- !app_assoc.
      * rewrite Hw. apply emit_set_log.
    + assert ((if bit_set irqSources i then if FD_ISSET fd ready
                 then sys_write fd "X" else ret tt else ret tt) s = Returned tt s) as ->.
      { destruct (bit_set irqSources i), (FD_ISSET fd ready); done. }
      by rewrite (IH (i + 1) s evs0 ltac:(lia) ltac:(lia) ltac:(lia) w Hw).
Qed.

(** [distribute] in closed form: one zero-timeout poll over the configured
    descriptors, then one-byte writes to the pulsed ones; nothing else
    changes. *)
Lemma distribute_spec irqSources s :
  irqCount_ (obj s) ≤ MAX_IRQS →
  (Z.to_nat (irqCount_ (obj s)) ≤ length (fd_ (obj s)))%nat →
  Forall (λ fd, 0 ≤ fd < FD_SETSIZE) (slots (obj s) 0 (Z.to_nat (irqCount_ (obj s)))) →
  let fds := slots (obj s) 0 (Z.to_nat (irqCount_ (obj s))) in
  let nfds := highestFD_ (obj s) + 1 in
  let ready := filter (λ fd, fd < nfds ∧ writable (world s) fd = true)
                 (list_to_set fds : gset Z) in
  distribute irqSources s
  = Returned tt (mkState (obj s)
      (set_log (log (world s) ++
         EvSelect nfds (list_to_set fds) (0, 0) ready
         :: map (λ fd, EvWrite fd "X") (pulses fds 0 irqSources ready)) (world s))).
Proof.
  intros Hmax Hlen Hran. cbn zeta.
  assert (0 + Z.of_nat (Z.to_nat (irqCount_ (obj s))) ≤ MAX_IRQS)
    by (unfold MAX_IRQS in *; lia).
  unfold distribute. unfold bind at 1, get at 1. unfold bind at 1.
  rewrite fdset_loop_spec; [|lia|done|cbn; lia|done].
  unfold bind at 1, get at 1. unfold bind at 1, sys_select at 1.
  rewrite union_empty_r_L.
  erewrite (write_loop_spec _ _ _ 0 _ [_]); cbn [obj world]; [done|lia|done|cbn; lia|].
  unfold emit. cbn. reflexivity.
Qed.

(** Only configured descriptors are pulsed, and none for an empty bitmap. *)
Lemma pulses_subset irqSources ready fds : ∀ i fd,
  fd ∈ pulses fds i irqSources ready → fd ∈ fds.
Proof.
  induction fds as [|fd0 fds IH]; intros i fd; cbn; [done|].
  rewrite elem_of_app, elem_of_cons. intros [Hin|Hin]; [|eauto].
  destruct (_ && _); [|by apply elem_of_nil in Hin].
  apply list_elem_of_singleton in Hin. by left.
Qed.

Lemma pulses_none ready fds : ∀ i irqSources,
  (∀ k, (k < length fds)%nat → bit_set irqSources (i + Z.of_nat k) = false) →
  pulses fds i irqSources ready = [].
Proof.
  induction fds as [|fd0 fds IH]; intros i b Hbits; cbn; [done|].
  pose proof (Hbits O ltac:(cbn; lia)) as H0.
  rewrite Z.add_0_r in H0. rewrite H0. cbn.
  apply IH. intros k Hk. replace (i + 1 + Z.of_nat k) with (i + Z.of_nat (S k)) by lia.
  apply Hbits. cbn. lia.
Qed.

Lemma filter_eq_absent (fd : Z) (l : list Z) : fd ∉ l → filter (eq fd) l = [].
Proof.
  induction l as [|x l IH]; [done|]. rewrite not_elem_of_cons. intros [Hne Hl].
  rewrite filter_cons_False by congruence. by apply IH.
Qed.

(** Each channel is pulsed once or not at all. *)
Lemma pulses_count irqSources ready fds : ∀ i k fd,
  NoDup fds → fds !! k = Some fd →
  length (filter (eq fd) (pulses fds i irqSources ready))
  = if bit_set irqSources (i + Z.of_nat k) && FD_ISSET fd ready then 1%nat else 0%nat.
Proof.
  induction fds as [|fd0 fds IH]; intros i k fd Hnd Hk; [done|].
  apply NoDup_cons in Hnd as [Hnotin Hnd]. cbn [pulses].
  rewrite filter_app, length_app.
  destruct k as [|k]; cbn in Hk.
  - injection Hk as ->. rewrite Z.add_0_r.
    assert (filter (eq fd) (pulses fds (i + 1) irqSources ready) = []) as ->.
    { apply filter_eq_absent. intros Hx. by apply pulses_subset in Hx. }
    destruct (_ && _); [|done].
    rewrite filter_cons_True by done. done.
  - assert (fd0 ≠ fd) by (intros ->; by apply list_elem_of_lookup_2 in Hk).
    assert (filter (eq fd) (if bit_set irqSources i && FD_ISSET fd0 ready
                            then [fd0] else []) = []) as ->.
    { destruct (_ && _); [|done]. by rewrite filter_cons_False by done. }
    rewrite (IH (i + 1) k fd Hnd Hk). cbn.
    by replace (i + 1 + Z.of_nat k) with (i + Z.of_nat (S k)) by lia.
Qed.

(** [distribute] only appends to the log, whatever the state. *)
Lemma grows_fdset_loop todo : ∀ i wfds, grows (fdset_loop todo i wfds).
Proof. induction todo; intros; cbn [fdset_loop]; auto with grows. Qed.

Lemma grows_write_loop todo : ∀ i irqSources wfds, grows (write_loop todo i irqSources wfds).
Proof.
  induction todo; intros; cbn [write_loop]; auto with grows.
  apply grows_bind; [auto with grows|]. intros fd.
  apply grows_bind; [|auto]. unfold sys_write. auto 6 with grows.
Qed.

#[local] Hint Resolve grows_fdset_loop grows_write_loop : grows.

Lemma grows_distribute irqSources : grows (distribute irqSources).
Proof. unfold distribute. auto 10 with grows. Qed.

(** ** Fan-out (C2) *)

(** What a successful [init] has put in place. *)
Section after_init.
Variables (dir : string) (irqCount : Z) (s0 s1 : State).
Hypothesis Hinit : init dir irqCount s0 = Returned true s1.

Lemma configured_slot k fd :
  slots (obj s1) 0 (Z.to_nat irqCount) !! k = Some fd →
  chan_ok (dir +:+ "/interrupt") s1 (Z.of_nat k) ∧ fd_ (obj s1) !! k = Some fd.
Proof.
  rewrite slots_lookup. intros [Hk Hfd]. split; [|done].
  apply (init_channels _ _ _ _ Hinit). lia.
Qed.

Lemma configured_count : irqCount_ (obj s1) = irqCount ∧ irqCount ≤ MAX_IRQS.
Proof. destruct (init_returned _ _ _ _ _ Hinit) as (_ & ? & _ & ?). auto. Qed.

Lemma configured_length : (Z.to_nat irqCount ≤ length (fd_ (obj s1)))%nat.
Proof.
  destruct (decide (irqCount ≤ 0)) as [?|Hpos]; [lia|].
  destruct (init_channels _ _ _ _ Hinit (irqCount - 1)) as (fd & Hfd & _); [lia|].
  apply lookup_lt_Some in Hfd. lia.
Qed.

Lemma configured_range k fd :
  slots (obj s1) 0 (Z.to_nat irqCount) !! k = Some fd → 0 ≤ fd ≤ highestFD_ (obj s1).
Proof.
  intros Hk. apply configured_slot in Hk as [(fd' & Hfd' & Hr & _) Hfd].
  rewrite Nat2Z.id in Hfd'. congruence.
Qed.

Lemma configured_NoDup : NoDup (slots (obj s1) 0 (Z.to_nat irqCount)).
Proof.
  apply NoDup_alt. intros i j fd Hi Hj.
  apply configured_slot in Hi as [(fi & Hfi & Hri & Hoi & _) Hi].
  apply configured_slot in Hj as [(fj & Hfj & Hrj & Hoj & _) Hj].
  rewrite Nat2Z.id in Hfi, Hfj.
  assert (fi = fd) as -> by congruence. assert (fj = fd) as -> by congruence.
  rewrite Hoi in Hoj. injection Hoj as Hname. apply pipe_name_inj in Hname. lia.
Qed.
End after_init.

(** C2: after a successful [init], [distribute] returns after one poll with
    a zero timeout followed by one-byte writes only; channel [i] gets exactly
    one of these writes when bit [i] of the bitmap is set and the poll found
    its descriptor writable, and none otherwise; every write goes to a
    configured channel; a bitmap of zero produces no write. *)
Theorem distribute_pulses_ready_sources dir irqCount s0 s1 w irqSources :
  init dir irqCount s0 = Returned true s1 →
  highestFD_ (obj s1) < FD_SETSIZE →
  - 2 ^ 31 ≤ irqSources < 2 ^ 31 →
  ∃ wfds ready fds,
    distribute irqSources (mkState (obj s1) w)
    = Returned tt (mkState (obj s1)
        (set_log (log w ++ EvSelect (highestFD_ (obj s1) + 1) wfds (0, 0) ready
                           :: map (λ fd, EvWrite fd "X") fds) w)) ∧
    (∀ i, 0 ≤ i < irqCount →
       ∃ fd, fd_ (obj s1) !! Z.to_nat i = Some fd ∧
             length (filter (eq fd) fds)
             = if Z.testbit irqSources i && writable w fd then 1%nat else 0%nat) ∧
    (∀ fd, fd ∈ fds →
       ∃ i, 0 ≤ i < irqCount ∧ fd_ (obj s1) !! Z.to_nat i = Some fd) ∧
    (irqSources = 0 → fds = []).
Proof.
  intros Hinit Hhigh Hint.
  destruct (configured_count _ _ _ _ Hinit) as [Hcnt Hmax].
  pose proof (configured_length _ _ _ _ Hinit) as Hlen.
  pose proof (configured_NoDup _ _ _ _ Hinit) as Hnd.
  set (n := Z.to_nat irqCount) in *.
  set (fds := slots (obj s1) 0 n) in *.
  set (ready := filter (λ fd, fd < highestFD_ (obj s1) + 1 ∧ writable w fd = true)
                  (list_to_set fds : gset Z)).
  exists (list_to_set fds), ready, (pulses fds 0 irqSources ready).
  split_and!.
  - rewrite distribute_spec; cbn [obj world]; rewrite ?Hcnt; [done|done|done|].
    apply Forall_lookup. intros k fd Hk.
    apply (configured_range _ _ _ _ Hinit) in Hk. lia.
  - intros i Hi.
    destruct (init_channels _ _ _ _ Hinit i Hi) as (fd & Hfd & Hr & _).
    exists fd. split; [done|].
    assert (Hslot : fds !! Z.to_nat i = Some fd).
    { apply slots_lookup. split; [subst n; lia|done]. }
    rewrite (pulses_count _ _ _ 0 _ _ Hnd Hslot).
    rewrite Z.add_0_l, Z2Nat.id by lia.
    rewrite bit_set_testbit by (unfold MAX_IRQS in *; lia).
    assert (FD_ISSET fd ready = writable w fd) as ->; [|done].
    unfold FD_ISSET. subst ready. destruct (writable w fd) eqn:Hw.
    + apply bool_decide_eq_true_2, elem_of_filter. split; [split; [lia|done]|].
      apply elem_of_list_to_set. by apply list_elem_of_lookup_2 in Hslot.
    + apply bool_decide_eq_false_2. rewrite elem_of_filter. intros [[_ ?] _]. congruence.
  - intros fd Hfd. apply pulses_subset, list_elem_of_lookup_1 in Hfd as [k Hk].
    apply slots_lookup in Hk as [Hk Hfd]. exists (Z.of_nat k).
    rewrite Nat2Z.id. split; [subst n; lia|done].
  - intros ->. apply pulses_none. intros k _. reflexivity.
Qed.

(** Three channels in the empty directory, sources 0 and 2 active. *)
Lemma distribute_pulses_ready_sources_witness :
  ∃ wfds ready fds,
    distribute 5 (mkState (obj (demo_after_init 3)) demo_world)
    = Returned tt (mkState (obj (demo_after_init 3))
        (set_log (log demo_world
                  ++ EvSelect (highestFD_ (obj (demo_after_init 3)) + 1) wfds (0, 0) ready
                     :: map (λ fd, EvWrite fd "X") fds) demo_world)) ∧
    (∀ i, 0 ≤ i < 3 →
       ∃ fd, fd_ (obj (demo_after_init 3)) !! Z.to_nat i = Some fd ∧
             length (filter (eq fd) fds)
             = if Z.testbit 5 i && writable demo_world fd then 1%nat else 0%nat) ∧
    (∀ fd, fd ∈ fds →
       ∃ i, 0 ≤ i < 3 ∧ fd_ (obj (demo_after_init 3)) !! Z.to_nat i = Some fd) ∧
    (5 = 0 → fds = []).
Proof.
  apply (distribute_pulses_ready_sources "." 3 demo_state (demo_after_init 3) demo_world 5).
  - vm_compute. reflexivity.
  - vm_compute. reflexivity.
  - lia.
Defined.

(** The run behind the witness: sources 0 and 2 are pulsed, source 1 is not. *)
Example distribute_5 :
  writes_of (log (world (final (distribute 5 (demo_after_init 3)))))
  = [3; 5].
Proof. vm_compute. reflexivity. Qed.

(** ** A count of zero (C10) *)

(** C10: [init dir 0] returns true without touching the world, records a
    count of 0 and a highest descriptor of -1; afterwards [distribute], for
    any bitmap and in any world, polls an empty set and writes nothing. *)
Theorem init_zero_then_distribute dir s :
  let d0 := set_highestFD (-1) (set_irqCount 0 (set_path (dir +:+ "/interrupt") (obj s))) in
  init dir 0 s = Returned true (mkState d0 (world s)) ∧
  irqCount_ d0 = 0 ∧ highestFD_ d0 = -1 ∧
  ∀ w irqSources, ∃ evs,
    distribute irqSources (mkState d0 w)
      = Returned tt (mkState d0 (set_log (log w ++ evs) w)) ∧
    evs = [EvSelect 0 ∅ (0, 0) ∅] ∧
    writes_of evs = [].
Proof.
  cbn zeta. split_and!; [reflexivity..|].
  intros w irqSources. exists [EvSelect 0 ∅ (0, 0) ∅]. split; [|done].
  rewrite distribute_spec; cbn [obj world irqCount_ set_highestFD set_irqCount];
    [|done|cbn; lia|apply Forall_nil_2].
  change (slots _ 0 (Z.to_nat 0)) with (@nil Z). cbn [pulses map list_to_set foldr].
  change (list_to_set []) with (∅ : gset Z).
  rewrite filter_empty_L; [reflexivity|apply _].
Qed.

(** ** A distributor that was never initialised (C8, C9) *)

(** C9: on a freshly constructed distributor all 32 slots hold -1 and
    [cleanup] returns without a single system call: no descriptor is closed,
    no name is removed, object and world are what they were. *)
Theorem cleanup_fresh_is_noop garbage w :
  fd_ (CDistributor_new garbage) = replicate 32 (-1) ∧
  path_ (CDistributor_new garbage) = "" ∧
  cleanup (mkState (CDistributor_new garbage) w)
    = Returned tt (mkState (CDistributor_new garbage) w).
Proof. split_and!; reflexivity. Qed.

(** C8: while the recorded count is 0, [spawnSelfTest] starts no thread and
    changes nothing. *)
Theorem spawnSelfTest_uninitialised imReg0 s :
  irqCount_ (obj s) = 0 → spawnSelfTest imReg0 s = Returned tt s.
Proof. intros H0. unfold spawnSelfTest, bind, get. rewrite H0. reflexivity. Qed.

(** A new distributor. *)
Lemma spawnSelfTest_uninitialised_witness :
  spawnSelfTest ImReg0 demo_state = Returned tt demo_state.
Proof. apply (spawnSelfTest_uninitialised ImReg0 demo_state). reflexivity. Defined.

(** With a count other than 0 the thread is started. *)
Lemma spawnSelfTest_initialised imReg0 s :
  irqCount_ (obj s) ≠ 0 →
  spawnSelfTest imReg0 s
    = Returned tt (mkState (obj s) (emit (EvSpawnSelfTest imReg0) (world s))).
Proof.
  intros H0. unfold spawnSelfTest, bind, get.
  destruct (Z.eqb_spec (irqCount_ (obj s)) 0); [done|reflexivity].
Qed.

(** ** cleanup *)






(** The first loop of [cleanup]: every descriptor other than -1 is closed
    once, every slot visited is set to -1. *)
Lemma close_loop_spec todo : ∀ i s,
  0 ≤ i → i + Z.of_nat todo ≤ MAX_IRQS →
  (Z.to_nat i + todo ≤ length (fd_ (obj s)))%nat →
  close_loop todo i s
  = Returned tt (mkState
      (set_fd (wipe todo (Z.to_nat i) (fd_ (obj s))) (obj s))
      (set_log (log (world s)
                ++ map EvClose (filter (λ fd, fd ≠ -1) (slots (obj s) i todo)))
         (set_fdtable (close_all (slots (obj s) i todo) (fdtable (world s)))
            (world s)))).
Proof.
  induction todo as [|todo IH]; intros i s Hi Hmax Hlen.
  - cbn. unfold ret. rewrite app_nil_r. by destruct s as [[] []].
  - destruct (load_fd_Some i s) as (fd & Hfd & Hload); [lia..|].
    rewrite (slots_S _ _ _ _ Hi Hfd).
    cbn [close_loop close_all wipe]. unfold bind at 1. rewrite Hload.
    unfold bind at 1.
    set (s1 := if fd =? -1 then s else
                 mkState (obj s) (emit (EvClose fd)
                   (set_fdtable (close_slot fd (fdtable (world s))) (world s)))).
    assert ((if negb (fd =? -1) then sys_close fd else ret tt) s = Returned tt s1) as ->.
    { subst s1. by destruct (fd =? -1). }
    assert (Hobj1 : obj s1 = obj s) by (subst s1; by destruct (fd =? -1)).
    unfold bind at 1, store_fd at 1. rewrite Hobj1.
    rewrite bool_decide_eq_true_2 by lia.
    rewrite IH; cbn [obj world set_fd fd_]; [|lia|lia|rewrite length_insert; lia].
    replace (Z.to_nat (i + 1)) with (S (Z.to_nat i)) by lia.
    assert (slots (set_fd (<[Z.to_nat i := -1]> (fd_ (obj s))) (obj s)) (i + 1) todo
            = slots (obj s) (i + 1) todo) as ->.
    { unfold slots. cbn [fd_ set_fd]. by rewrite drop_insert_lt by lia. }
    f_equal. f_equal.
    subst s1. destruct (Z.eqb_spec fd (-1)) as [->|Hne].
    + rewrite filter_cons_False by (intros H; by apply H). done.
    + rewrite filter_cons_True by done. cbn [map app world].
      unfold emit, set_log, set_fdtable. cbn. by rewrite <- app_assoc.
Qed.


Lemma remove_loop_spec path todo : ∀ i s,
  0 ≤ i → i + Z.of_nat todo ≤ MAX_IRQS → (String.length path ≤ 253)%nat →
  remove_loop todo i path s
  = Returned tt (mkState (obj s)
      (set_log (log (world s) ++ map EvRemove (names_from path i todo))
         (set_files
            (files (world s)
             ∖ list_to_set (filter (λ x, remove_ok (world s) x = true)
                              (names_from path i todo)))
            (world s)))).
Proof.
  induction todo as [|todo IH]; intros i s Hi Hmax Hlen.
  - cbn. unfold ret. rewrite app_nil_r. change (list_to_set []) with (∅ : gset string).
    rewrite difference_empty_L. destruct s as [d w]. by destruct w.
  - cbn [remove_loop names_from]. unfold bind at 1, sprintf_name, sprintf.
    rewrite bool_decide_eq_true_2.
    2:{ rewrite pipe_name_length. pose proof (two_digits i). lia. }
    unfold ret at 1, bind at 1, sys_remove, act. rewrite IH by lia.
    cbn [obj world map]. f_equal. f_equal.
    destruct (remove_ok (world s) (pipe_name path i)) eqn:Hrm.
    + rewrite filter_cons_True by done.
      unfold emit, set_log, set_files. cbn.
      rewrite <- app_assoc. f_equal. set_solver.
    + rewrite filter_cons_False by congruence.
      unfold emit, set_log, set_files. cbn.
      by rewrite <- app_assoc.
Qed.

(** [cleanup] in closed form. *)
Lemma cleanup_spec s :
  teardown_ready (obj s) → cleanup s = Returned tt (after_cleanup s).
Proof.
  intros (Harr & Hcnt & Hpath). unfold array_ok in Harr.
  unfold cleanup, after_cleanup, swept. cbn zeta.
  unfold bind at 1, get at 1. unfold bind at 1.
  rewrite close_loop_spec; [|lia|unfold MAX_IRQS in *; lia|unfold MAX_IRQS in *; lia].
  unfold bind at 1, get at 1. cbn [obj world set_fd path_].
  case_bool_decide as Hempty.
  - unfold ret. cbn [map]. rewrite app_nil_r, filter_nil.
    change (list_to_set []) with (∅ : gset string).
    rewrite difference_empty_L. reflexivity.
  - rewrite remove_loop_spec by (cbn; unfold MAX_IRQS; lia || done).
    cbn [obj world]. f_equal. f_equal.
    unfold set_log, set_files, set_fdtable. cbn. by rewrite <- app_assoc.
Qed.



(** ** The sweep of cleanup (C4) *)







(** The sweep stops at index 31: a FIFO with index 32, which only a run
    with more than [MAX_IRQS] sources can have left, is not removed. *)
Example cleanup_leaves_index_32 :
  let w := mkWorld {["./interrupt31"; "./interrupt32"]} []
             (λ _, true) (λ _, true) (λ _, true) (λ _, true) [] in
  elements (files (world (final (cleanup (mkState (obj (demo_after_init 2)) w)))))
  = ["./interrupt32"].
Proof. vm_compute. reflexivity. Qed.

(** ** Idempotence of cleanup (C6) *)



(** The partial initialisation behind the witnesses: one channel open,
    [init] has returned false, and [cleanup] closes exactly that channel. *)
Example partial_init_then_cleanup :
  init "." 3 stale_state = Returned false partial_state ∧
  fd_ (obj partial_state) !! 0%nat = Some 3 ∧
  fd_ (obj partial_state) !! 1%nat = Some (-1) ∧
  closes_of (log (world (final (cleanup partial_state)))) = [3] ∧
  elements (files (world (final (cleanup partial_state)))) = [].
Proof. vm_compute. done. Qed.

(** ** The interrupt monitor loop (C3) *)

(** The loop is the pass, over and over. *)
Lemma monitor_loop_cons verbose configfd uiofd commandHigh p script :
  monitor_loop verbose configfd uiofd commandHigh (p :: script)
  = bind (monitor_pass verbose configfd uiofd commandHigh p)
      (λ _, monitor_loop verbose configfd uiofd commandHigh script).
Proof. reflexivity. Qed.

(** C3: on a pass in which [pwrite] and the blocking [read] succeed, a
    status of zero ends the pass after the register load: nothing is stored
    to the acknowledge register, no poll and no write happen.  A status
    other than zero is stored to the acknowledge register first and only
    then handed to [distribute]: all that [distribute] does, its poll and
    its channel writes, comes after that store in the log. *)
Theorem monitor_pass_acknowledges_first verbose configfd uiofd commandHigh p s :
  pwrite_ret p = 1 → read_ret p = 4 →
  let bitmap := wrap_u32 (status p) in
  let armed := [EvPwrite configfd commandHigh 5 1; EvRead uiofd 4 4;
                EvLoad ImReg0 bitmap] in
  (bitmap = 0 →
     monitor_pass verbose configfd uiofd commandHigh p s
     = Returned tt (mkState (obj s) (set_log (log (world s) ++ armed) (world s)))) ∧
  (bitmap ≠ 0 →
     ∃ pre post,
       let s_ack := mkState (obj s)
         (set_log (log (world s) ++ pre ++ [EvStore ImReg1 bitmap]) (world s)) in
       monitor_pass verbose configfd uiofd commandHigh p s
         = distribute (wrap_int bitmap) s_ack ∧
       writes_of pre = [] ∧ polls_of pre = [] ∧ stores_of pre = [] ∧
       log (world (final (monitor_pass verbose configfd uiofd commandHigh p s)))
         = log (world s) ++ pre ++ EvStore ImReg1 bitmap :: post).
Proof.
  intros Hpw Hrd. cbn zeta.
  unfold monitor_pass. rewrite Hpw, Hrd. cbn [Z.eqb Pos.eqb negb].
  split.
  - intros ->. unfold bind, trace, act, ret, emit, set_log. cbn.
    by rewrite <- ?app_assoc.
  - intros Hnz.
    exists ([EvPwrite configfd commandHigh 5 1; EvRead uiofd 4 4;
             EvLoad ImReg0 (wrap_u32 (status p))]
            ++ if verbose
               then [EvPrintf Stdout "Interrupt from sources 0x%08x\n"
                       [AInt (wrap_u32 (status p))]]
               else []).
    cbn zeta.
    match goal with |- ∃ post, ?m = distribute ?b ?sa ∧ _ =>
      assert (Heq : m = distribute b sa) end.
    { unfold bind at 1 2 3, trace, act. cbn [obj world].
      destruct (Z.eqb_spec (wrap_u32 (status p)) 0) as [?|_]; [done|].
      unfold bind at 1 2. destruct verbose; unfold printf, trace, act, ret, emit, set_log;
        cbn [obj world log files fdtable mkfifo_ok open_ok writable];
        by rewrite <- ?app_assoc. }
    rewrite Heq.
    match goal with |- context [distribute ?b ?sa] =>
      destruct (grows_distribute b sa) as [post Hpost] end.
    exists post. split_and!; [done|by destruct verbose..|].
    rewrite Hpost. cbn [world log set_log]. by rewrite <- ?app_assoc.
Qed.

(** Three channels, a status of 5. *)
Lemma monitor_pass_acknowledges_first_witness :
  let bitmap := wrap_u32 5 in
  let armed := [EvPwrite 11 0 5 1; EvRead 10 4 4; EvLoad ImReg0 bitmap] in
  (bitmap = 0 →
     monitor_pass false 11 10 0 (mkPass 1 4 5) (demo_after_init 3)
     = Returned tt (mkState (obj (demo_after_init 3))
         (set_log (log (world (demo_after_init 3)) ++ armed) (world (demo_after_init 3))))) ∧
  (bitmap ≠ 0 →
     ∃ pre post,
       let s_ack := mkState (obj (demo_after_init 3))
         (set_log (log (world (demo_after_init 3)) ++ pre ++ [EvStore ImReg1 bitmap])
            (world (demo_after_init 3))) in
       monitor_pass false 11 10 0 (mkPass 1 4 5) (demo_after_init 3)
         = distribute (wrap_int bitmap) s_ack ∧
       writes_of pre = [] ∧ polls_of pre = [] ∧ stores_of pre = [] ∧
       log (world (final (monitor_pass false 11 10 0 (mkPass 1 4 5) (demo_after_init 3))))
         = log (world (demo_after_init 3)) ++ pre ++ EvStore ImReg1 bitmap :: post).
Proof.
  apply (monitor_pass_acknowledges_first false 11 10 0 (mkPass 1 4 5) (demo_after_init 3));
    reflexivity.
Defined.

(** Two passes of the loop on three channels: a spurious one (status 0) and
    one with sources 0 and 2 active.  The acknowledge store precedes the
    poll and both channel writes; source 1 is not written to.  The loop
    then re-arms the interrupt and waits. *)
Example monitor_loop_spurious_then_5 :
  drop (length (log (world (demo_after_init 3))))
    (log (world (final
       (monitor_loop false 11 10 0 [mkPass 1 4 0; mkPass 1 4 5] (demo_after_init 3)))))
  = [EvPwrite 11 0 5 1; EvRead 10 4 4; EvLoad ImReg0 0;
     EvPwrite 11 0 5 1; EvRead 10 4 4; EvLoad ImReg0 5;
     EvStore ImReg1 5;
     EvSelect 6 {[3; 4; 5]} (0, 0) {[3; 4; 5]};
     EvWrite 3 "X"; EvWrite 5 "X";
     EvPwrite 11 0 5 1].
Proof. vm_compute. reflexivity. Qed.

(** [monitorInterrupts] from its first line on: both pseudo-files are
    opened, the command byte is read and its interrupt-disable bit cleared,
    and the pass of above follows. *)
Example monitorInterrupts_one_interrupt :
  let s := final (init "." 3 (mkState (CDistributor_new 0) uio_world)) in
  drop (length (log (world s)))
    (log (world (final (monitorInterrupts false 0 1 7 [mkPass 1 4 2] s))))
  = [EvOpen "/dev/uio0" O_RDONLY 6;
     EvOpen "/sys/class/uio/uio0/device/config" O_RDWR 7;
     EvPread 7 1 5 1;
     EvPrintf Stdout "Starting uio driver for device %d\n" [AInt 0];
     EvPwrite 7 3 5 1; EvRead 6 4 4; EvLoad ImReg0 2;
     EvStore ImReg1 2;
     EvSelect 6 {[3; 4; 5]} (0, 0) {[3; 4; 5]};
     EvWrite 4 "X";
     EvPwrite 7 3 5 1].
Proof. vm_compute. reflexivity. Qed.

(** ** The self-test loop (C5) *)

(** The three verdicts, and the round robin. *)
Lemma selfTest_verdict_spec irqCount irq bytesRead :
  0 ≤ irq < irqCount →
  selfTest_verdict irqCount irq bytesRead =
    if bytesRead =? 0 then Break
    else if bytesRead =? 1 then Next ((irq + 1) `mod` irqCount)
    else Terminate 1.
Proof.
  intros Hirq. unfold selfTest_verdict.
  destruct (bytesRead =? 0); [done|]. destruct (bytesRead =? 1); cbn [negb]; [|done].
  destruct (Z.eqb_spec (irq + 1) irqCount) as [<-|Hne].
  - by rewrite Z_mod_same_full.
  - by rewrite Z.mod_small by lia.
Qed.

(** One turn of the loop of [selfTest], spelled out. *)
Lemma selfTest_loop_step imReg0 fd counter irq f bytesRead reads s :
  0 ≤ irq < irqCount_ (obj s) → irqCount_ (obj s) ≤ MAX_IRQS →
  fd !! Z.to_nat irq = Some (Some f) →
  let counter' := wrap_u32 (counter + 1) in
  let s1 := mkState (obj s)
    (set_log (log (world s) ++
       [EvPrintf Stdout "Generating interrupt #%d on irq %d\n" [AInt counter'; AInt irq];
        EvStore imReg0 (2 ^ irq);
        EvRead f 1 bytesRead]) (world s)) in
  selfTest_loop (bytesRead :: reads) imReg0 fd counter irq s =
    if bytesRead =? 0 then Returned tt s1
    else if bytesRead =? 1 then
      selfTest_loop reads imReg0 fd counter' ((irq + 1) `mod` irqCount_ (obj s)) s1
    else
      Exited 1 (mkState (obj s)
        (emit (EvPrintf Stdout "bytesRead was %d!\n" [AInt bytesRead]) (world s1))).
Proof.
  intros Hirq Hmax Hfd. cbn zeta.
  cbn [selfTest_loop].
  unfold bind at 1, printf at 1, trace at 1, act at 1.
  unfold bind at 1, trace at 1, act at 1. cbn [obj world].
  unfold bind at 1, local_load at 1.
  rewrite bool_decide_eq_true_2, Hfd by lia.
  unfold ret at 1, bind at 1, trace at 1, act at 1. cbn [obj world].
  unfold bind at 1, get at 1. cbn [obj world].
  rewrite selfTest_verdict_spec by done.
  rewrite shl_u32 by (unfold MAX_IRQS in *; lia).
  assert (Hw : ∀ e1 e2 e3 w, emit e3 (emit e2 (emit e1 w))
                 = set_log (log w ++ [e1; e2; e3]) w).
  { intros. unfold emit, set_log. cbn. by rewrite <- !app_assoc. }
  rewrite Hw.
  destruct (bytesRead =? 0); [done|]. destruct (bytesRead =? 1); done.
Qed.

(** C5: one iteration of the self-test loop, for a source [irq] within the
    configured count.  The loop announces the test, stores the bit of the
    source to the register and reads one byte from the channel of that
    source.  A read of 0 bytes ends the loop with a normal return; any
    result other than 0 and 1 ends the process with [exit(1)]; a read of
    1 byte moves on to the source [(irq + 1) mod irqCount_], which is again
    within the configured count. *)
Theorem selfTest_iteration imReg0 fd counter irq f bytesRead reads s :
  0 ≤ irq < irqCount_ (obj s) → irqCount_ (obj s) ≤ MAX_IRQS →
  fd !! Z.to_nat irq = Some (Some f) →
  let counter' := wrap_u32 (counter + 1) in
  let irq' := (irq + 1) `mod` irqCount_ (obj s) in
  let s1 := mkState (obj s)
    (set_log (log (world s) ++
       [EvPrintf Stdout "Generating interrupt #%d on irq %d\n" [AInt counter'; AInt irq];
        EvStore imReg0 (2 ^ irq);
        EvRead f 1 bytesRead]) (world s)) in
  let run := selfTest_loop (bytesRead :: reads) imReg0 fd counter irq s in
  (bytesRead = 0 → run = Returned tt s1) ∧
  (bytesRead ≠ 0 → bytesRead ≠ 1 →
     run = Exited 1 (mkState (obj s)
             (emit (EvPrintf Stdout "bytesRead was %d!\n" [AInt bytesRead]) (world s1)))) ∧
  (bytesRead = 1 →
     run = selfTest_loop reads imReg0 fd counter' irq' s1 ∧
     0 ≤ irq' < irqCount_ (obj s) ∧
     (irq + 1 < irqCount_ (obj s) → irq' = irq + 1) ∧
     (irq + 1 = irqCount_ (obj s) → irq' = 0)).
Proof.
  intros Hirq Hmax Hfd. cbn zeta.
  rewrite (selfTest_loop_step _ _ _ _ _ _ _ _ Hirq Hmax Hfd).
  split_and!.
  - by intros ->.
  - intros H0 H1. destruct (Z.eqb_spec bytesRead 0); [done|].
    by destruct (Z.eqb_spec bytesRead 1).
  - intros ->. cbn [Z.eqb Pos.eqb]. split; [|split; [|split]].
    + done.
    + apply Z.mod_pos_bound. lia.
    + intros Hlt. apply Z.mod_small. lia.
    + intros <-. apply Z_mod_same_full.
Qed.

(** Three channels, source 2 delivered: the next source is 0. *)
Lemma selfTest_iteration_witness :
  let counter' := wrap_u32 (0 + 1) in
  let irq' := (2 + 1) `mod` irqCount_ (obj (demo_after_init 3)) in
  let s1 := mkState (obj (demo_after_init 3))
    (set_log (log (world (demo_after_init 3)) ++
       [EvPrintf Stdout "Generating interrupt #%d on irq %d\n" [AInt counter'; AInt 2];
        EvStore ImReg0 (2 ^ 2);
        EvRead 8 1 1]) (world (demo_after_init 3))) in
  let run := selfTest_loop (1 :: [0]) ImReg0 [Some 6; Some 7; Some 8] 0 2
               (demo_after_init 3) in
  (1 = 0 → run = Returned tt s1) ∧
  (1 ≠ 0 → 1 ≠ 1 →
     run = Exited 1 (mkState (obj (demo_after_init 3))
             (emit (EvPrintf Stdout "bytesRead was %d!\n" [AInt 1]) (world s1)))) ∧
  (1 = 1 →
     run = selfTest_loop [0] ImReg0 [Some 6; Some 7; Some 8] counter' irq' s1 ∧
     0 ≤ irq' < irqCount_ (obj (demo_after_init 3)) ∧
     (2 + 1 < irqCount_ (obj (demo_after_init 3)) → irq' = 2 + 1) ∧
     (2 + 1 = irqCount_ (obj (demo_after_init 3)) → irq' = 0)).
Proof.
  apply (selfTest_iteration ImReg0 [Some 6; Some 7; Some 8] 0 2 8 1 [0] (demo_after_init 3)).
  - vm_compute. split; [discriminate|reflexivity].
  - vm_compute. discriminate.
  - reflexivity.
Defined.

(** The round robin over a whole run: [k] deliveries followed by the end of
    the stream.  The loop returns, and the sources it has raised are
    [irq], [irq+1], ... modulo the configured count. *)
Lemma selfTest_round_robin imReg0 fd (k : nat) : ∀ counter irq s,
  0 ≤ irq < irqCount_ (obj s) → irqCount_ (obj s) ≤ MAX_IRQS →
  (∀ i, 0 ≤ i < irqCount_ (obj s) → ∃ f, fd !! Z.to_nat i = Some (Some f)) →
  ∃ s' evs,
    selfTest_loop (replicate k 1 ++ [0]) imReg0 fd counter irq s = Returned tt s' ∧
    obj s' = obj s ∧
    log (world s') = log (world s) ++ evs ∧
    stores_of evs
    = map (λ j, (imReg0, 2 ^ ((irq + j) `mod` irqCount_ (obj s))))
        (seqZ 0 (Z.of_nat k + 1)).
Proof.
  induction k as [|k IH]; intros counter irq s Hirq Hmax Hfd.
  - destruct (Hfd irq Hirq) as [f Hf]. cbn [replicate app].
    rewrite (selfTest_loop_step _ _ _ _ _ _ _ _ Hirq Hmax Hf). cbn [Z.eqb].
    eexists _, _. split_and!; [done|done|done|].
    change (seqZ 0 (Z.of_nat 0 + 1)) with [0]. cbn [map stores_of omap].
    cbn. by rewrite Z.add_0_r, Z.mod_small.
  - destruct (Hfd irq Hirq) as [f Hf]. cbn [replicate app].
    rewrite (selfTest_loop_step _ _ _ _ _ _ _ _ Hirq Hmax Hf). cbn [Z.eqb Pos.eqb].
    match goal with |- context [selfTest_loop _ _ _ ?c ?i ?s1] =>
      destruct (IH c i s1) as (s' & evs & Hrun & Hobj & Hlog & Hst) end.
    { cbn [obj]. apply Z.mod_pos_bound. lia. }
    { done. }
    { done. }
    cbn [obj world set_log log] in Hobj, Hlog, Hst.
    eexists s', (_ ++ evs). split_and!; [done|done|by rewrite Hlog, <- app_assoc|].
    rewrite stores_of_app, Hst. cbn [stores_of omap app].
    rewrite (seqZ_cons 0 (Z.of_nat (S k) + 1)) by lia.
    cbn [map]. rewrite Z.add_0_r, (Z.mod_small irq) by lia. f_equal.
    replace (Z.pred (Z.of_nat (S k) + 1)) with (Z.of_nat k + 1) by lia.
    rewrite <- (fmap_add_seqZ 1 0). change (Z.succ 0) with (1 + 0).
    rewrite <- list_fmap_compose. apply list_fmap_ext. intros _ j _. cbn.
    do 2 f_equal. rewrite Zplus_mod_idemp_l. f_equal. lia.
Qed.

(** The whole of [selfTest] on three channels: private read-only handles
    6, 7, 8 are opened, the sources are raised in the order 0, 1, 2, 0, 1 and
    the loop returns when the fifth read delivers nothing. *)
Example selfTest_three_channels :
  ∃ s', selfTest ImReg0 [1; 1; 1; 1; 0] (demo_after_init 3) = Returned tt s' ∧
    let evs := drop (length (log (world (demo_after_init 3)))) (log (world s')) in
    opens_of evs = [6; 7; 8] ∧
    stores_of evs = [(ImReg0, 1); (ImReg0, 2); (ImReg0, 4); (ImReg0, 1); (ImReg0, 2)] ∧
    omap (λ e, match e with EvRead fd _ r => Some (fd, r) | _ => None end) evs
    = [(6, 1); (7, 1); (8, 1); (6, 1); (7, 0)].
Proof. eexists. split; [vm_compute; reflexivity|]. vm_compute. done. Qed.

(** A read that fails (-1) ends the process. *)
Example selfTest_protocol_violation :
  ∃ s', selfTest ImReg0 [1; -1; 1] (demo_after_init 3) = Exited 1 s'.
Proof. eexists. vm_compute. reflexivity. Qed.

(** A thread whose reads never return stays blocked. *)
Example selfTest_blocked :
  ∃ s', selfTest ImReg0 [1] (demo_after_init 3) = Blocked s'.
Proof. eexists. vm_compute. reflexivity. Qed.

(** ** createPipe, case by case *)

(** [createPipe] always returns when the name fits its buffer.  It returns
    a new descriptor, the lowest free one, when the name is free or can be
    removed and the system permits the creation and the opening of the
    FIFO; otherwise -1, with no descriptor opened.  No other name is
    touched, the object is not touched. *)
Lemma createPipe_cases path i s :
  (String.length (pipe_name path i) < 256)%nat →
  ∃ fd w',
    createPipe path i s = Returned fd (mkState (obj s) w') ∧
    same_oracles (world s) w' ∧
    (∀ x, x ≠ pipe_name path i → x ∈ files w' ↔ x ∈ files (world s)) ∧
    if permitted (world s) (pipe_name path i) then
      fd = Z.of_nat (first_free (fdtable (world s))) ∧
      fdtable w' = alloc_fd (pipe_name path i) (fdtable (world s)) ∧
      pipe_name path i ∈ files w'
    else
      fd = -1 ∧ fdtable w' = fdtable (world s).
Proof.
  intros Hfit. unfold createPipe, sprintf_name, sprintf, bind, permitted.
  rewrite bool_decide_eq_true_2 by lia.
  unfold ret at 1, sys_remove, act.
  destruct (remove_ok (world s) (pipe_name path i)) eqn:Hrm;
    cbn -[pipe_name]; unfold sys_mkfifo; cbn -[pipe_name]; rewrite ?Hrm.
  - rewrite orb_true_r. cbn [andb].
    rewrite bool_decide_eq_true_2 by set_solver.
    destruct (mkfifo_ok (world s) (pipe_name path i)) eqn:Hmk; cbn -[pipe_name].
    + unfold sys_open. cbn -[pipe_name].
      rewrite bool_decide_eq_true_2 by set_solver.
      destruct (open_ok (world s) (pipe_name path i)) eqn:Hop; cbn -[pipe_name].
      * destruct (Z.ltb_spec (Z.of_nat (first_free (fdtable (world s)))) 0) as [?|_];
          [lia|]. cbn -[pipe_name].
        eexists _, _. split; [reflexivity|]. cbn -[pipe_name].
        split_and!; [done|set_solver|done|done|set_solver].
      * eexists _, _. split; [reflexivity|]. cbn -[pipe_name].
        split_and!; [done|set_solver|done|done].
    + eexists _, _. split; [reflexivity|]. cbn -[pipe_name].
      split_and!; [done|set_solver|done|done].
  - rewrite orb_false_r. case_bool_decide as Hfree; cbn -[pipe_name].
    2:{ eexists _, _. split; [reflexivity|]. cbn -[pipe_name].
        split_and!; [done|set_solver|done|done]. }
    destruct (mkfifo_ok (world s) (pipe_name path i)) eqn:Hmk; cbn -[pipe_name].
    + unfold sys_open. cbn -[pipe_name].
      rewrite bool_decide_eq_true_2 by set_solver.
      destruct (open_ok (world s) (pipe_name path i)) eqn:Hop; cbn -[pipe_name].
      * destruct (Z.ltb_spec (Z.of_nat (first_free (fdtable (world s)))) 0) as [?|_];
          [lia|]. cbn -[pipe_name].
        eexists _, _. split; [reflexivity|]. cbn -[pipe_name].
        split_and!; [done|set_solver|done|done|set_solver].
      * eexists _, _. split; [reflexivity|]. cbn -[pipe_name].
        split_and!; [done|set_solver|done|done].
    + eexists _, _. split; [reflexivity|]. cbn -[pipe_name].
      split_and!; [done|set_solver|done|done].
Qed.

Lemma first_free_not_open t : ¬ is_open t (first_free t).
Proof.
  intros [name Hname]. pose proof (lookup_lt_Some _ _ _ Hname) as Hlt.
  rewrite first_free_None in Hname by done. discriminate.
Qed.

Lemma alloc_fd_inv name t k x :
  alloc_fd name t !! k = Some (Some x) → t !! k = Some (Some x) ∨ k = first_free t.
Proof.
  unfold alloc_fd. destruct (decide (k = first_free t)) as [->|Hne]; [by right|].
  intros Hk. left. case_bool_decide as Hlt.
  - by rewrite list_lookup_insert_ne in Hk.
  - apply lookup_app_Some in Hk as [Hk|[Hge Hk]]; [done|].
    apply list_lookup_singleton_Some in Hk as [Hk _].
    pose proof (first_free_le t). lia.
Qed.

(** ** init, step by step *)

(** One iteration of the loop of [init], by the answer of the system. *)
Lemma init_loop_cases todo i s :
  0 ≤ i < MAX_IRQS → (Z.to_nat i < length (fd_ (obj s)))%nat →
  (String.length (pipe_name (path_ (obj s)) i) < 256)%nat →
  let name := pipe_name (path_ (obj s)) i in
  ∃ fd w1,
    same_oracles (world s) w1 ∧
    (∀ x, x ≠ name → x ∈ files w1 ↔ x ∈ files (world s)) ∧
    (if permitted (world s) name then
       fd = Z.of_nat (first_free (fdtable (world s))) ∧
       fdtable w1 = alloc_fd name (fdtable (world s)) ∧ name ∈ files w1
     else fd = -1 ∧ fdtable w1 = fdtable (world s)) ∧
    init_loop (S todo) i s =
      let d2 := set_fd (<[Z.to_nat i := fd]> (fd_ (obj s))) (obj s) in
      if fd =? -1 then Returned false (mkState d2 w1)
      else init_loop todo (i + 1)
             (mkState (set_highestFD (Z.max (highestFD_ (obj s)) fd) d2) w1).
Proof.
  intros Hi Hlen Hfit. cbn zeta.
  destruct (createPipe_cases (path_ (obj s)) i s Hfit) as (fd & w1 & Hcp & Hor & Hfiles & Hcase).
  exists fd, w1. split_and!; [done..|].
  rewrite init_loop_step, Hcp. cbn [obj world].
  rewrite bool_decide_eq_true_2 by done.
  destruct (fd =? -1); [done|]. f_equal. cbn [obj world highestFD_ set_fd].
  destruct (Z.ltb_spec (highestFD_ (obj s)) fd) as [Hlt|Hge].
  - by rewrite Z.max_r by lia.
  - rewrite Z.max_l by lia. by destruct (obj s).
Qed.

(** What the loop of [init] has done when it returns, in full: [m] channels
    were made, one after the other from index [i] on, and the loop went
    through ([b = true], [m = todo]) or gave up at index [i + m]. *)
Lemma init_loop_post todo : ∀ i s,
  0 ≤ i → i + Z.of_nat todo ≤ MAX_IRQS → array_ok (obj s) →
  (String.length (path_ (obj s)) ≤ 253)%nat →
  let name j := pipe_name (path_ (obj s)) j in
  ∃ b s' m,
    init_loop todo i s = Returned b s' ∧
    0 ≤ m ≤ Z.of_nat todo ∧ (b = true ↔ m = Z.of_nat todo) ∧
    path_ (obj s') = path_ (obj s) ∧ irqCount_ (obj s') = irqCount_ (obj s) ∧
    array_ok (obj s') ∧ same_oracles (world s) (world s') ∧
    (∀ j, 0 ≤ j → j < i ∨ i + m < j ∨ (b = true ∧ i + m ≤ j) →
       fd_ (obj s') !! Z.to_nat j = fd_ (obj s) !! Z.to_nat j) ∧
    (b = false →
       fd_ (obj s') !! Z.to_nat (i + m) = Some (-1) ∧
       permitted (world s) (name (i + m)) = false) ∧
    (∀ j, i ≤ j < i + m →
       permitted (world s) (name j) = true ∧
       ∃ fd, fd_ (obj s') !! Z.to_nat j = Some fd ∧ 0 ≤ fd ≤ highestFD_ (obj s') ∧
             fdtable (world s') !! Z.to_nat fd = Some (Some (name j)) ∧
             ¬ is_open (fdtable (world s)) (Z.to_nat fd) ∧
             name j ∈ files (world s')) ∧
    (∀ x, (∀ j, i ≤ j < i + Z.of_nat todo → x ≠ name j) →
       x ∈ files (world s') ↔ x ∈ files (world s)) ∧
    (∀ k x, fdtable (world s) !! k = Some (Some x) →
       fdtable (world s') !! k = Some (Some x)) ∧
    (∀ k, is_open (fdtable (world s')) k →
       is_open (fdtable (world s)) k ∨
       ∃ j, i ≤ j < i + m ∧ fd_ (obj s') !! Z.to_nat j = Some (Z.of_nat k)) ∧
    highestFD_ (obj s) ≤ highestFD_ (obj s') ∧
    (highestFD_ (obj s') = highestFD_ (obj s) ∨
     ∃ j, i ≤ j < i + m ∧ fd_ (obj s') !! Z.to_nat j = Some (highestFD_ (obj s'))).
Proof.
  induction todo as [|todo IH]; intros i s Hi Hmax Harr Hpath; cbn zeta.
  { exists true, s, 0. cbn [init_loop]. unfold ret.
    split_and!; try done; try lia; try (intros; lia).
    intros k Hk. by left. }
  assert (Hfit : (String.length (pipe_name (path_ (obj s)) i) < 256)%nat).
  { rewrite pipe_name_length. pose proof (two_digits i). unfold MAX_IRQS in *. lia. }
  unfold array_ok in Harr.
  destruct (init_loop_cases todo i s) as (fd & w1 & Hor & Hfiles & Hcase & Hrun);
    [unfold MAX_IRQS in *; lia..|done|].
  cbn zeta in Hrun. rewrite Hrun. clear Hrun.
  destruct (permitted (world s) (pipe_name (path_ (obj s)) i)) eqn:Hperm.
  - (* the channel is made *)
    destruct Hcase as (-> & Htab & Hin).
    destruct (Z.eqb_spec (Z.of_nat (first_free (fdtable (world s)))) (-1)) as [?|_]; [lia|].
    set (fd := Z.of_nat (first_free (fdtable (world s)))) in *.
    set (s3 := mkState _ w1).
    destruct (IH (i + 1) s3) as (b & s' & m & Hrun & Hm & Hb & Hp & Hc & Ha & Ho & Hsl
                                   & Hfail & Hch & Hfl & Hkeep & Hnew & Hh & Hhmax);
      [lia|lia|unfold array_ok; cbn; by rewrite length_insert|done|].
    subst s3. cbn [obj world path_ irqCount_ highestFD_ set_highestFD set_fd fd_] in *.
    assert (Hslot_i : fd_ (obj s') !! Z.to_nat i = Some fd).
    { rewrite (Hsl i) by lia. apply list_lookup_insert_eq. unfold MAX_IRQS in *. lia. }
    assert (Hoper : ∀ x, x ≠ pipe_name (path_ (obj s)) i →
              permitted w1 x = permitted (world s) x).
    { intros x Hx. destruct Hor as (Hk1 & Hk2 & _ & Hk4). unfold permitted.
      rewrite Hk1, Hk2, Hk4. do 3 f_equal. apply bool_decide_ext.
      by rewrite (Hfiles x Hx). }
    exists b, s', (m + 1). split_and!; try done; try lia.
    + rewrite Hb. lia.
    + destruct Hor as (? & ? & ? & ?), Ho as (? & ? & ? & ?).
      unfold same_oracles. split_and!; congruence.
    + intros j Hj0 Hj.
      assert (j ≠ i) by (destruct Hj as [?|[?|[_ ?]]]; lia).
      rewrite Hsl; [apply list_lookup_insert_ne; lia|done|].
      destruct Hj as [?|[?|[? ?]]];
        [left; lia|right; left; lia|right; right; split; [done|lia]].
    + intros Hbf. destruct (Hfail Hbf) as [Hs Hpf].
      replace (i + (m + 1)) with (i + 1 + m) by lia. rewrite <- Hoper; [done|].
      intros Heq. apply pipe_name_inj in Heq. lia.
    + intros j Hj. destruct (decide (j = i)) as [->|Hne].
      * split; [done|]. exists fd. split_and!; [done|lia|lia| | |].
        -- apply Hkeep. rewrite Htab. subst fd. rewrite Nat2Z.id. apply alloc_fd_new.
        -- subst fd. rewrite Nat2Z.id. apply first_free_not_open.
        -- rewrite Hfl; [done|]. intros j Hj' Heq. apply pipe_name_inj in Heq. lia.
      * destruct (Hch j) as (Hpj & fj & Hfj & Hrj & Htj & Hoj & Hnj); [lia|].
        split.
        { rewrite <- Hoper; [done|]. intros Heq. apply pipe_name_inj in Heq. lia. }
        exists fj. split_and!; try done; try lia.
        intros [x Hx]. apply Hoj. exists x. rewrite Htab. by apply alloc_fd_old.
    + intros x Hx. rewrite Hfl by (intros j Hj; apply Hx; lia).
      apply Hfiles, Hx. lia.
    + intros k x Hk. apply Hkeep. rewrite Htab. by apply alloc_fd_old.
    + intros k Hk. destruct (Hnew k Hk) as [[x Hx]|(j & Hj & Hfj)].
      * rewrite Htab in Hx. apply alloc_fd_inv in Hx as [Hx| ->]; [left; by exists x|].
        right. exists i. split; [lia|done].
      * right. exists j. split; [lia|done].
    + destruct Hhmax as [Heq|(j & Hj & Hfj)].
      * destruct (Z.max_spec (highestFD_ (obj s)) fd) as [[_ Hmx]|[_ Hmx]].
        -- right. exists i. split; [lia|]. by rewrite Heq, Hmx.
        -- left. by rewrite Heq, Hmx.
      * right. exists j. split; [lia|done].
  - (* the system refuses: the loop gives up *)
    destruct Hcase as (-> & Htab). cbn [Z.eqb].
    eexists false, _, 0. split; [reflexivity|].
    cbn [obj world path_ irqCount_ highestFD_ set_fd fd_].
    split_and!; try done; try lia.
    + unfold array_ok. cbn. by rewrite length_insert.
    + intros j Hj0 [Hj|[Hj|[? _]]]; [| |done]; apply list_lookup_insert_ne; lia.
    + intros _. rewrite Z.add_0_r. split; [|done].
      apply list_lookup_insert_eq. unfold MAX_IRQS in *. lia.
    + intros x Hx. apply Hfiles, Hx. lia.
    + intros k x. by rewrite Htab.
    + intros k Hk. left. by rewrite <- Htab.
Qed.

(** [init] as a whole, from an object whose array is in place, for a count
    the array can take and a directory whose FIFO names fit the buffer. *)
Lemma init_post dir irqCount s :
  array_ok (obj s) → irqCount ≤ MAX_IRQS → (String.length dir ≤ 243)%nat →
  let path := dir +:+ "/interrupt" in
  ∃ b s' m,
    init dir irqCount s = Returned b s' ∧
    0 ≤ m ≤ Z.max 0 irqCount ∧ (b = true ↔ m = Z.max 0 irqCount) ∧
    path_ (obj s') = path ∧ irqCount_ (obj s') = irqCount ∧
    array_ok (obj s') ∧ same_oracles (world s) (world s') ∧
    (∀ j, 0 ≤ j → m < j ∨ (b = true ∧ m ≤ j) →
       fd_ (obj s') !! Z.to_nat j = fd_ (obj s) !! Z.to_nat j) ∧
    (b = false →
       fd_ (obj s') !! Z.to_nat m = Some (-1) ∧
       permitted (world s) (pipe_name path m) = false) ∧
    (∀ j, 0 ≤ j < m →
       permitted (world s) (pipe_name path j) = true ∧
       ∃ fd, fd_ (obj s') !! Z.to_nat j = Some fd ∧ 0 ≤ fd ≤ highestFD_ (obj s') ∧
             fdtable (world s') !! Z.to_nat fd = Some (Some (pipe_name path j)) ∧
             ¬ is_open (fdtable (world s)) (Z.to_nat fd) ∧
             pipe_name path j ∈ files (world s')) ∧
    (∀ x, (∀ j, 0 ≤ j < irqCount → x ≠ pipe_name path j) →
       x ∈ files (world s') ↔ x ∈ files (world s)) ∧
    (∀ k x, fdtable (world s) !! k = Some (Some x) →
       fdtable (world s') !! k = Some (Some x)) ∧
    (∀ k, is_open (fdtable (world s')) k →
       is_open (fdtable (world s)) k ∨
       ∃ j, 0 ≤ j < m ∧ fd_ (obj s') !! Z.to_nat j = Some (Z.of_nat k)) ∧
    (highestFD_ (obj s') = -1 ∨
     ∃ j, 0 ≤ j < m ∧ fd_ (obj s') !! Z.to_nat j = Some (highestFD_ (obj s'))).
Proof.
  intros Harr Hmax Hdir. cbn zeta. unfold init.
  unfold bind at 1, modify at 1. unfold bind at 1, modify at 1.
  unfold bind at 1, modify at 1. cbn [obj world].
  set (s0 := mkState _ (world s)).
  destruct (init_loop_post (Z.to_nat irqCount) 0 s0)
    as (b & s' & m & Hrun & Hm & Hb & Hp & Hc & Ha & Ho & Hsl & Hfail & Hch & Hfl
        & Hkeep & Hnew & _ & Hhmax).
  { done. }
  { unfold MAX_IRQS in *. lia. }
  { done. }
  { subst s0. cbn. rewrite string_app_length. cbn. lia. }
  subst s0. cbn [obj world path_ irqCount_ highestFD_ fd_ set_path set_irqCount
                 set_highestFD] in *.
  rewrite !Z.add_0_l in *.
  exists b, s', m. split_and!; try done; try lia.
  - rewrite Hb. lia.
  - intros j Hj0 Hj. apply Hsl; [done|]. right. done.
  - intros x Hx. apply Hfl. intros j Hj. apply Hx. lia.
Qed.

(** ** What decides the result of init *)

(** X1: [init] returns, and it returns true exactly when, for every one
    of the FIFOs [dir/interrupt0] ... [dir/interrupt(irqCount-1)], the name
    is free or the system lets the process remove what holds it, and the
    system lets the process create and open the FIFO.  A stale FIFO of an
    earlier run is replaced; a name that is taken by something that cannot
    be removed makes [init] fail. *)
Theorem init_succeeds_iff_permitted dir irqCount s :
  array_ok (obj s) → irqCount ≤ MAX_IRQS → (String.length dir ≤ 243)%nat →
  ∃ b s',
    init dir irqCount s = Returned b s' ∧
    (b = true ↔
     ∀ j, 0 ≤ j < irqCount →
       permitted (world s) (pipe_name (dir +:+ "/interrupt") j) = true).
Proof.
  intros Harr Hmax Hdir.
  destruct (init_post dir irqCount s Harr Hmax Hdir)
    as (b & s' & m & Hrun & Hm & Hb & _ & _ & _ & _ & _ & Hfail & Hch & _).
  exists b, s'. split; [done|]. split.
  - intros Htrue j Hj. apply Hch. apply Hb in Htrue. lia.
  - intros Hall. destruct b; [done|].
    destruct (Hfail eq_refl) as [_ Hno].
    assert (m ≠ Z.max 0 irqCount) as Hne by (intros Heq; by apply Hb in Heq).
    rewrite Hall in Hno by lia. done.
Qed.

Lemma init_succeeds_iff_permitted_witness :
  ∃ b s',
    init "." 8 occupied_state = Returned b s' ∧
    (b = true ↔
     ∀ j, 0 ≤ j < 8 →
       permitted (world occupied_state) (pipe_name ("." +:+ "/interrupt") j) = true).
Proof.
  apply (init_succeeds_iff_permitted "." 8 occupied_state).
  - reflexivity.
  - unfold MAX_IRQS. lia.
  - cbn. lia.
Defined.

(** Where the name of source 7 cannot be removed, [init] for eight sources
    makes seven channels and fails; where the names are stale FIFOs, they
    are replaced. *)
Example init_on_taken_names :
  (∃ s', init "." 8 occupied_state = Returned false s' ∧
         fd_ (obj s') !! 7%nat = Some (-1)) ∧
  permitted occupied_world "./interrupt7" = false ∧
  permitted stale_world "./interrupt0" = true ∧
  permitted stale_world "./interrupt1" = false.
Proof. split; [eexists; split|]; vm_compute; done. Qed.

(** X2: an [init] that fails does not roll back.  It stops at the first
    source [k] whose FIFO the system refuses: the channels of the sources
    before [k] are in place and stay open, slot [k] holds -1, the slots
    after [k] are as they were, and [irqCount_] records the count that was
    asked for, not the number of channels made. *)
Theorem init_failure_keeps_channels dir irqCount s s' :
  array_ok (obj s) → irqCount ≤ MAX_IRQS → (String.length dir ≤ 243)%nat →
  init dir irqCount s = Returned false s' →
  let path := dir +:+ "/interrupt" in
  ∃ k, 0 ≤ k < irqCount ∧
       permitted (world s) (pipe_name path k) = false ∧
       (∀ j, 0 ≤ j < k →
          permitted (world s) (pipe_name path j) = true ∧ chan_ok path s' j) ∧
       fd_ (obj s') !! Z.to_nat k = Some (-1) ∧
       (∀ j, k < j → fd_ (obj s') !! Z.to_nat j = fd_ (obj s) !! Z.to_nat j) ∧
       irqCount_ (obj s') = irqCount.
Proof.
  intros Harr Hmax Hdir Hrun. cbn zeta.
  destruct (init_post dir irqCount s Harr Hmax Hdir)
    as (b & s1 & m & Hrun' & Hm & Hb & _ & Hc & _ & _ & Hsl & Hfail & Hch & _).
  rewrite Hrun in Hrun'. injection Hrun' as <- <-.
  destruct (Hfail eq_refl) as [Hslot Hno].
  assert (m ≠ Z.max 0 irqCount) as Hne by (intros Heq; by apply Hb in Heq).
  exists m. split_and!; try done; try lia.
  - intros j Hj. destruct (Hch j Hj) as (Hp & fd & H1 & H2 & H3 & _ & H4).
    split; [done|]. by exists fd.
  - intros j Hj. apply Hsl; lia.
Qed.

Lemma init_failure_keeps_channels_witness :
  ∃ k, 0 ≤ k < 3 ∧
       permitted (world stale_state) (pipe_name ("." +:+ "/interrupt") k) = false ∧
       (∀ j, 0 ≤ j < k →
          permitted (world stale_state) (pipe_name ("." +:+ "/interrupt") j) = true ∧
          chan_ok ("." +:+ "/interrupt") partial_state j) ∧
       fd_ (obj partial_state) !! Z.to_nat k = Some (-1) ∧
       (∀ j, k < j →
          fd_ (obj partial_state) !! Z.to_nat j = fd_ (obj stale_state) !! Z.to_nat j) ∧
       irqCount_ (obj partial_state) = 3.
Proof.
  apply (init_failure_keeps_channels "." 3 stale_state partial_state).
  - reflexivity.
  - unfold MAX_IRQS. lia.
  - cbn. lia.
  - vm_compute. reflexivity.
Defined.

(** X3: after a successful [init] for at least one source, [highestFD_] is
    the greatest descriptor of the configured channels: it bounds every one
    of them and is one of them. *)
Theorem init_highestFD_is_maximum dir irqCount s s' :
  array_ok (obj s) → (String.length dir ≤ 243)%nat → 0 < irqCount →
  init dir irqCount s = Returned true s' →
  (∀ j fd, 0 ≤ j < irqCount → fd_ (obj s') !! Z.to_nat j = Some fd →
     fd ≤ highestFD_ (obj s')) ∧
  ∃ j, 0 ≤ j < irqCount ∧ fd_ (obj s') !! Z.to_nat j = Some (highestFD_ (obj s')).
Proof.
  intros Harr Hdir Hpos Hrun.
  assert (Hmax : irqCount ≤ MAX_IRQS) by (by eapply init_returned).
  destruct (init_post dir irqCount s Harr Hmax Hdir)
    as (b & s1 & m & Hrun' & Hm & Hb & _ & _ & _ & _ & _ & _ & Hch & _ & _ & _ & Hh).
  rewrite Hrun in Hrun'. injection Hrun' as <- <-.
  assert (m = irqCount) as -> by (destruct Hb as [Hb _]; rewrite Hb by done; lia).
  split.
  - intros j fd Hj Hfd. destruct (Hch j Hj) as (_ & fd' & Hfd' & Hr & _).
    rewrite Hfd in Hfd'. injection Hfd' as <-. lia.
  - destruct Hh as [Hh|Hh]; [|done].
    destruct (Hch 0) as (_ & fd' & _ & Hr & _); lia.
Qed.

Lemma init_highestFD_is_maximum_witness :
  (∀ j fd, 0 ≤ j < 3 → fd_ (obj (demo_after_init 3)) !! Z.to_nat j = Some fd →
     fd ≤ highestFD_ (obj (demo_after_init 3))) ∧
  ∃ j, 0 ≤ j < 3 ∧
       fd_ (obj (demo_after_init 3)) !! Z.to_nat j
       = Some (highestFD_ (obj (demo_after_init 3))).
Proof.
  apply (init_highestFD_is_maximum "." 3 demo_state (demo_after_init 3)).
  - reflexivity.
  - cbn. lia.
  - lia.
  - vm_compute. reflexivity.
Defined.

(** ** Closing descriptors *)





Lemma elem_of_slots d n fd :
  fd ∈ slots d 0 n → ∃ k, (k < n)%nat ∧ fd_ d !! k = Some fd.
Proof.
  unfold slots. cbn. intros Hin. apply list_elem_of_lookup_1 in Hin as [k Hk].
  apply lookup_take_Some in Hk as [Hk Hlt]. by exists k.
Qed.

(** ** From init to cleanup *)



(** ** distribute on any object *)

Lemma set_log_nil w : set_log (log w ++ []) w = w.
Proof. destruct w. unfold set_log. cbn. by rewrite app_nil_r. Qed.

Lemma state_eta s : mkState (obj s) (world s) = s.
Proof. by destruct s. Qed.

(** The loops of [distribute], one iteration unfolded. *)
Lemma fdset_loop_S todo i wfds s :
  fdset_loop (S todo) i wfds s
  = if bool_decide (0 ≤ i < MAX_IRQS) then
      match fd_ (obj s) !! Z.to_nat i with
      | Some fd =>
          if bool_decide (0 ≤ fd < FD_SETSIZE)
          then fdset_loop todo (i + 1) ({[fd]} ∪ wfds) s
          else Undefined FdSetOverrun s
      | None => Undefined ArrayOverrun s
      end
    else Undefined ArrayOverrun s.
Proof.
  cbn [fdset_loop]. unfold bind at 1, load_fd.
  case_bool_decide; [|done].
  destruct (fd_ (obj s) !! Z.to_nat i) as [fd|]; [|done].
  unfold bind, FD_SET. by case_bool_decide.
Qed.

Lemma write_loop_S todo i irqSources ready s :
  write_loop (S todo) i irqSources ready s
  = if bool_decide (0 ≤ i < MAX_IRQS) then
      match fd_ (obj s) !! Z.to_nat i with
      | Some fd =>
          write_loop todo (i + 1) irqSources ready
            (if bit_set irqSources i && FD_ISSET fd ready
             then mkState (obj s) (emit (EvWrite fd "X") (world s)) else s)
      | None => Undefined ArrayOverrun s
      end
    else Undefined ArrayOverrun s.
Proof.
  cbn [write_loop]. unfold bind at 1, load_fd.
  case_bool_decide; [|done].
  destruct (fd_ (obj s) !! Z.to_nat i) as [fd|]; [|done].
  unfold bind, bit_set.
  destruct (negb (Z.land irqSources (shl_int 1 i) =? 0)); [|done].
  by destruct (FD_ISSET fd ready).
Qed.

(** The first loop reads the array and touches nothing. *)
Lemma fdset_loop_any todo : ∀ i wfds s,
  (∃ wfds', fdset_loop todo i wfds s = Returned wfds' s) ∨
  (∃ f, fdset_loop todo i wfds s = Undefined f s ∧ (f = ArrayOverrun ∨ f = FdSetOverrun)).
Proof.
  induction todo as [|todo IH]; intros i wfds s.
  - left. by exists wfds.
  - rewrite fdset_loop_S.
    case_bool_decide; [|right; exists ArrayOverrun; auto].
    destruct (fd_ (obj s) !! Z.to_nat i) as [fd|]; [|right; exists ArrayOverrun; auto].
    case_bool_decide; [|right; exists FdSetOverrun; auto].
    apply IH.
Qed.

(** The second loop writes to descriptors that are in the set it is given,
    and does nothing else. *)
Lemma write_loop_any irqSources ready todo : ∀ i s,
  ∃ fds,
    Forall (λ fd, fd ∈ ready) fds ∧
    let s' := mkState (obj s)
                (set_log (log (world s) ++ map (λ fd, EvWrite fd "X") fds) (world s)) in
    write_loop todo i irqSources ready s = Returned tt s' ∨
    write_loop todo i irqSources ready s = Undefined ArrayOverrun s'.
Proof.
  induction todo as [|todo IH]; intros i s.
  - exists []. split; [done|]. left. cbn. by rewrite set_log_nil, state_eta.
  - rewrite write_loop_S.
    assert (Hstop : ∃ fds, Forall (λ fd, fd ∈ ready) fds ∧
              let s' := mkState (obj s)
                 (set_log (log (world s) ++ map (λ fd, EvWrite fd "X") fds) (world s)) in
              Undefined (A:=unit) ArrayOverrun s = Returned tt s' ∨
              Undefined (A:=unit) ArrayOverrun s = Undefined ArrayOverrun s').
    { exists []. split; [done|]. right. cbn. by rewrite set_log_nil, state_eta. }
    case_bool_decide; [|done].
    destruct (fd_ (obj s) !! Z.to_nat i) as [fd|]; [|done]. clear Hstop.
    destruct (bit_set irqSources i && FD_ISSET fd ready) eqn:Hw.
    + apply andb_true_iff in Hw as [_ Hin].
      destruct (IH (i + 1) (mkState (obj s) (emit (EvWrite fd "X") (world s))))
        as (fds & Hfds & Hrun).
      exists (fd :: fds). split.
      { constructor; [|done]. unfold FD_ISSET in Hin. by apply bool_decide_eq_true_1 in Hin. }
      cbn [obj world] in Hrun. unfold emit in Hrun.
      rewrite set_log_app in Hrun. cbn zeta in *. cbn [map]. exact Hrun.
    + apply IH.
Qed.

Lemma distribute_unfold irqSources s :
  distribute irqSources s
  = match fdset_loop (Z.to_nat (irqCount_ (obj s))) 0 ∅ s with
    | Returned wfds s' =>
        let nfds := highestFD_ (obj s') + 1 in
        let ready := filter (λ fd, fd < nfds ∧ writable (world s') fd = true) wfds in
        write_loop (Z.to_nat (irqCount_ (obj s))) 0 irqSources ready
          (mkState (obj s') (emit (EvSelect nfds wfds (0, 0) ready) (world s')))
    | Exited c s' => Exited c s'
    | Undefined f s' => Undefined f s'
    | Blocked s' => Blocked s'
    end.
Proof.
  unfold distribute, bind, get, sys_select.
  by destruct (fdset_loop _ 0 ∅ s).
Qed.

Lemma pulses_ready irqSources ready fds : ∀ i,
  Forall (λ fd, fd ∈ ready) (pulses fds i irqSources ready).
Proof.
  induction fds as [|fd fds IH]; intros i; cbn [pulses]; [constructor|].
  destruct (bit_set irqSources i); cbn [andb app]; [|apply IH].
  unfold FD_ISSET. case_bool_decide; cbn [app]; [|apply IH].
  constructor; [done|apply IH].
Qed.

(** When the first loop of [distribute] comes to its end, the object is fit
    for [distribute]. *)
Lemma fdset_loop_Returned todo : ∀ i wfds s wfds' s',
  0 ≤ i ≤ MAX_IRQS → (Z.to_nat i ≤ length (fd_ (obj s)))%nat →
  fdset_loop todo i wfds s = Returned wfds' s' →
  i + Z.of_nat todo ≤ MAX_IRQS ∧
  (Z.to_nat i + todo ≤ length (fd_ (obj s)))%nat ∧
  Forall (λ fd, 0 ≤ fd < FD_SETSIZE) (slots (obj s) i todo).
Proof.
  induction todo as [|todo IH]; intros i wfds s wfds' s' Hi Hlen Hrun.
  { split_and!; [lia|lia|]. unfold slots. rewrite take_0. constructor. }
  rewrite fdset_loop_S in Hrun.
  case_bool_decide as Hr; [|done].
  destruct (fd_ (obj s) !! Z.to_nat i) as [fd|] eqn:Hfd; [|done].
  case_bool_decide as Hfdr; [|done].
  pose proof (lookup_lt_Some _ _ _ Hfd) as Hlt.
  apply IH in Hrun as (Hmax & Hlen' & Hall); [|lia|lia].
  split_and!; [lia|lia|].
  rewrite (slots_S _ _ _ _ (proj1 Hi) Hfd). by constructor.
Qed.

(** X5: [distribute] on any object whatsoever (new, initialised, half
    initialised, cleaned up, a count beyond the array).  When the count is
    within the array and the slots below it hold descriptors an [fd_set]
    can take, [distribute] returns, having changed nothing but the log: it
    has polled once, with [highestFD_ + 1] and a zero timeout (also when
    the count is zero), and after that only written the byte X to
    descriptors that this poll reported ready.  Otherwise its first loop
    runs into undefined behaviour, reading past the array or handing
    [FD_SET] a descriptor it cannot take, before any poll or write is
    made. *)
Theorem distribute_polls_once_or_faults irqSources s :
  (fanout_ready (obj s) →
   ∃ wfds ready fds,
     distribute irqSources s
     = Returned tt (logged s (EvSelect (highestFD_ (obj s) + 1) wfds (0, 0) ready
                              :: map (λ fd, EvWrite fd "X") fds)) ∧
     ready ⊆ wfds ∧ Forall (λ fd, fd ∈ ready) fds) ∧
  (¬ fanout_ready (obj s) →
   ∃ f, (f = ArrayOverrun ∨ f = FdSetOverrun) ∧
        distribute irqSources s = Undefined f s).
Proof.
  split.
  - intros (Hmax & Hlen & Hran).
    eexists _, _, _. split; [by apply distribute_spec|]. split.
    + intros fd Hfd. by apply elem_of_filter in Hfd as [_ ?].
    + apply pulses_ready.
  - intros Hnot. rewrite distribute_unfold.
    destruct (fdset_loop_any (Z.to_nat (irqCount_ (obj s))) 0 ∅ s)
      as [[wfds Hrun]|(f & Hrun & Hf)]; rewrite Hrun; [|by exists f].
    exfalso. apply Hnot.
    apply fdset_loop_Returned in Hrun as (Hmax & Hlen & Hall);
      [|unfold MAX_IRQS; lia|cbn; lia].
    split_and!; [lia|cbn in Hlen; lia|done].
Qed.

(** ** The order of the pulses *)

Lemma pulses_sublist irqSources ready fds : ∀ i,
  pulses fds i irqSources ready `sublist_of` fds.
Proof.
  induction fds as [|fd fds IH]; intros i; cbn [pulses]; [done|].
  destruct (bit_set irqSources i && FD_ISSET fd ready); cbn [app].
  - by apply sublist_skip.
  - by apply sublist_cons.
Qed.

(** X6: after a successful [init], the pulses of one [distribute] go out in
    ascending order of the source index: the descriptors written to, in the
    order of the writes, are a sublist of the slots 0, 1, ...,
    [irqCount - 1] of the descriptor array. *)
Theorem distribute_in_source_order dir irqCount s0 s1 w irqSources :
  init dir irqCount s0 = Returned true s1 →
  highestFD_ (obj s1) < FD_SETSIZE →
  ∃ evs,
    distribute irqSources (mkState (obj s1) w)
    = Returned tt (mkState (obj s1) (set_log (log w ++ evs) w)) ∧
    writes_of evs `sublist_of` slots (obj s1) 0 (Z.to_nat irqCount).
Proof.
  intros Hinit Hhigh.
  destruct (configured_count _ _ _ _ Hinit) as [Hcnt Hmax].
  pose proof (configured_length _ _ _ _ Hinit) as Hlen.
  eexists. split.
  - rewrite distribute_spec; cbn [obj world]; rewrite ?Hcnt; [done|done|done|].
    apply Forall_lookup. intros k fd Hk.
    apply (configured_range _ _ _ _ Hinit) in Hk. lia.
  - change (writes_of (?e :: ?l)) with (writes_of l).
    rewrite writes_of_pulses. apply pulses_sublist.
Qed.

Lemma distribute_in_source_order_witness :
  ∃ evs,
    distribute 5 (mkState (obj (demo_after_init 3)) demo_world)
    = Returned tt (mkState (obj (demo_after_init 3)) (set_log (log demo_world ++ evs) demo_world)) ∧
    writes_of evs `sublist_of` slots (obj (demo_after_init 3)) 0 (Z.to_nat 3).
Proof.
  apply (distribute_in_source_order "." 3 demo_state (demo_after_init 3) demo_world 5).
  - vm_compute. reflexivity.
  - vm_compute. reflexivity.
Defined.

(** ** The bits distribute looks at *)

Lemma write_loop_bits b1 b2 ready todo : ∀ i s,
  0 ≤ i →
  (∀ j, i ≤ j < i + Z.of_nat todo → j < MAX_IRQS → bit_set b1 j = bit_set b2 j) →
  write_loop todo i b1 ready s = write_loop todo i b2 ready s.
Proof.
  induction todo as [|todo IH]; intros i s Hi Hbits; [done|].
  rewrite !write_loop_S.
  case_bool_decide as Hr; [|done].
  destruct (fd_ (obj s) !! Z.to_nat i) as [fd|]; [|done].
  rewrite (Hbits i) by lia.
  apply IH; [lia|]. intros j Hj. apply Hbits. lia.
Qed.

(** X7: [distribute] looks at the bits of the bitmap below [irqCount_]
    only: two bitmaps that agree on these bits give the same outcome, log
    included, in every state. *)
Theorem distribute_ignores_high_bits b1 b2 s :
  - 2 ^ 31 ≤ b1 < 2 ^ 31 → - 2 ^ 31 ≤ b2 < 2 ^ 31 →
  (∀ i, 0 ≤ i < irqCount_ (obj s) → Z.testbit b1 i = Z.testbit b2 i) →
  distribute b1 s = distribute b2 s.
Proof.
  intros H1 H2 Hbits. rewrite !distribute_unfold.
  destruct (fdset_loop _ 0 ∅ s) as [wfds s'| | |]; try done.
  cbn zeta. apply write_loop_bits; [done|].
  intros j Hj Hmax.
  rewrite !bit_set_testbit by (unfold MAX_IRQS in *; lia).
  apply Hbits. lia.
Qed.

Lemma distribute_ignores_high_bits_witness :
  distribute 5 (demo_after_init 3) = distribute 13 (demo_after_init 3).
Proof.
  apply (distribute_ignores_high_bits 5 13 (demo_after_init 3)); [lia|lia|].
  change (irqCount_ (obj (demo_after_init 3))) with 3.
  intros i Hi.
  assert (i = 0 ∨ i = 1 ∨ i = 2) as [->|[->| ->]] by lia; reflexivity.
Defined.

(** ** distribute after a failed init *)

Lemma fdset_loop_faults todo : ∀ i wfds s,
  0 ≤ i → i + Z.of_nat todo ≤ MAX_IRQS →
  (Z.to_nat i + todo ≤ length (fd_ (obj s)))%nat →
  (∃ j v, i ≤ j < i + Z.of_nat todo ∧ fd_ (obj s) !! Z.to_nat j = Some v ∧
          ¬ (0 ≤ v < FD_SETSIZE)) →
  fdset_loop todo i wfds s = Undefined FdSetOverrun s.
Proof.
  induction todo as [|todo IH]; intros i wfds s Hi Hmax Hlen (j & v & Hj & Hv & Hbad);
    [lia|].
  destruct (load_fd_Some i s) as (fd & Hfd & _); [lia|lia|].
  rewrite fdset_loop_S, bool_decide_eq_true_2, Hfd by lia.
  case_bool_decide as Hr; [|done].
  apply IH; [lia|lia|lia|].
  exists j, v. split_and!; [|lia|done|done].
  destruct (decide (j = i)) as [->|]; [|lia]. congruence.
Qed.

(** X8: a distributor whose [init] has failed must not be handed to
    [distribute]: the slot of the source [init] gave up at holds -1, the
    first loop of [distribute] passes it to [FD_SET], and the behaviour is
    undefined before any poll or write is made. *)
Theorem distribute_after_failed_init dir irqCount s s1 w irqSources :
  array_ok (obj s) → irqCount ≤ MAX_IRQS → (String.length dir ≤ 243)%nat →
  init dir irqCount s = Returned false s1 →
  distribute irqSources (mkState (obj s1) w)
  = Undefined FdSetOverrun (mkState (obj s1) w).
Proof.
  intros Harr Hmax Hdir Hrun.
  destruct (init_post dir irqCount s Harr Hmax Hdir)
    as (b & s1' & m & Hrun' & Hm & Hb & _ & Hc & Ha & _ & _ & Hfail & _).
  rewrite Hrun in Hrun'. injection Hrun' as <- <-.
  destruct (Hfail eq_refl) as [Hslot _].
  assert (m ≠ Z.max 0 irqCount) as Hne by (intros Heq; by apply Hb in Heq).
  rewrite distribute_unfold. cbn [obj].
  rewrite fdset_loop_faults; [done|done|unfold MAX_IRQS in *; lia| |].
  - cbn [obj]. unfold array_ok, MAX_IRQS in *. lia.
  - exists m, (-1). cbn [obj]. split_and!; try done; unfold FD_SETSIZE; lia.
Qed.

Lemma distribute_after_failed_init_witness :
  distribute 1 (mkState (obj partial_state) stale_world)
  = Undefined FdSetOverrun (mkState (obj partial_state) stale_world).
Proof.
  apply (distribute_after_failed_init "." 3 stale_state partial_state stale_world 1).
  - reflexivity.
  - unfold MAX_IRQS. lia.
  - cbn. lia.
  - vm_compute. reflexivity.
Defined.

(** ** The monitor loop as a whole *)

Lemma logged_nil s : logged s [] = s.
Proof. unfold logged. by rewrite set_log_nil, state_eta. Qed.

Lemma logged_app s evs evs' : logged (logged s evs) evs' = logged s (evs ++ evs').
Proof. unfold logged. cbn [obj world]. by rewrite set_log_app. Qed.

Lemma loads_of_app l l' : loads_of (l ++ l') = loads_of l ++ loads_of l'.
Proof. apply omap_app. Qed.

Lemma pwrites_of_app l l' : pwrites_of (l ++ l') = pwrites_of l ++ pwrites_of l'.
Proof. apply omap_app. Qed.


(** [distribute] loads and stores no register and makes no [pwrite]; it
    returns when the object is fit for it. *)
Lemma distribute_any irqSources s :
  ∃ evs,
    (distribute irqSources s = Returned tt (logged s evs) ∨
     (¬ fanout_ready (obj s) ∧ ∃ f, distribute irqSources s = Undefined f (logged s evs))) ∧
    loads_of evs = [] ∧ stores_of evs = [] ∧ pwrites_of evs = [].
Proof.
  assert (Hw : ∀ fds, loads_of (map (λ fd, EvWrite fd "X") fds) = [] ∧
                      stores_of (map (λ fd, EvWrite fd "X") fds) = [] ∧
                      pwrites_of (map (λ fd, EvWrite fd "X") fds) = []).
  { induction fds as [|fd fds IH]; [done|]. exact IH. }
  destruct (decide (fanout_ready (obj s))) as [(Hmax & Hlen & Hran)|Hnot].
  - eexists. rewrite distribute_spec by done. cbn zeta. split; [left; reflexivity|].
    apply (Hw (pulses _ 0 irqSources _)).
  - rewrite distribute_unfold.
    destruct (fdset_loop_any (Z.to_nat (irqCount_ (obj s))) 0 ∅ s)
      as [[wfds Hrun]|(f & Hrun & _)]; rewrite Hrun.
    + cbn zeta. set (ready := filter _ wfds).
      set (e := EvSelect (highestFD_ (obj s) + 1) wfds (0, 0) ready).
      destruct (write_loop_any irqSources ready (Z.to_nat (irqCount_ (obj s))) 0
                  (mkState (obj s) (emit e (world s)))) as (fds & _ & Hrun').
      exists (e :: map (λ fd, EvWrite fd "X") fds).
      change (mkState (obj s) (emit e (world s))) with (logged s [e]) in *.
      cbn zeta in Hrun'. fold (logged (logged s [e]) (map (λ fd, EvWrite fd "X") fds)) in Hrun'.
      rewrite logged_app in Hrun'. cbn [app] in Hrun'.
      split; [|apply (Hw fds)].
      destruct Hrun' as [->| ->]; [by left|right]. split; [done|]. by eexists.
    + exists []. rewrite logged_nil. split; [|done]. right. split; [done|]. by eexists.
Qed.

(** One pass of the loop, case by case. *)
Lemma monitor_pass_run verbose configfd uiofd commandHigh p s :
  monitor_pass verbose configfd uiofd commandHigh p s
  = let wr := EvPwrite configfd commandHigh 5 (pwrite_ret p) in
    let rd := EvRead uiofd 4 (read_ret p) in
    let v := wrap_u32 (status p) in
    if negb (pwrite_ret p =? 1) then Exited 1 (logged s [wr; EvPerror "config write:"])
    else if negb (read_ret p =? 4) then Exited 1 (logged s [wr; rd; EvPerror "uio read:"])
    else if v =? 0 then Returned tt (logged s [wr; rd; EvLoad ImReg0 v])
    else distribute (wrap_int v)
           (logged s ([wr; rd; EvLoad ImReg0 v]
                      ++ (if verbose
                          then [EvPrintf Stdout "Interrupt from sources 0x%08x\n" [AInt v]]
                          else [])
                      ++ [EvStore ImReg1 v])).
Proof.
  unfold monitor_pass. cbn zeta.
  unfold bind at 1, trace at 1, act at 1.
  destruct (negb (pwrite_ret p =? 1)).
  { unfold bind, perror, trace, act, exit, logged, emit, set_log. cbn.
    by rewrite <- ?app_assoc. }
  unfold bind at 1, trace at 1, act at 1.
  destruct (negb (read_ret p =? 4)).
  { unfold bind, perror, trace, act, exit, logged, emit, set_log. cbn.
    by rewrite <- ?app_assoc. }
  unfold bind at 1, trace at 1, act at 1.
  destruct (wrap_u32 (status p) =? 0).
  { unfold ret, logged, emit, set_log. cbn. by rewrite <- ?app_assoc. }
  unfold bind at 1 2. f_equal.
  destruct verbose; unfold printf, trace, act, ret, logged, emit, set_log; cbn;
    by rewrite <- ?app_assoc.
Qed.

(** The whole loop, for any object and any script: the passes that
    complete, what they load, store and [pwrite], and how the loop ends. *)
Lemma monitor_loop_any verbose configfd uiofd commandHigh script : ∀ s,
  ∃ evs (k : nat),
    (k ≤ length script)%nat ∧
    Forall pass_ok (take k script) ∧
    loads_of evs = map (λ p, (ImReg0, wrap_u32 (status p))) (take k script) ∧
    stores_of evs = omap ack_of (take k script) ∧
    Forall (eq (configfd, commandHigh, 5)) (pwrites_of evs) ∧
    ((k = length script ∧
      monitor_loop verbose configfd uiofd commandHigh script s = Blocked (logged s evs)) ∨
     ((∃ p, script !! k = Some p ∧ ¬ pass_ok p) ∧
      monitor_loop verbose configfd uiofd commandHigh script s = Exited 1 (logged s evs)) ∨
     (¬ fanout_ready (obj s) ∧
      ∃ f, monitor_loop verbose configfd uiofd commandHigh script s
           = Undefined f (logged s evs))).
Proof.
  induction script as [|p script IH]; intros s.
  { exists [EvPwrite configfd commandHigh 5 1], 0%nat.
    split_and!; try done; [by repeat constructor|by left]. }
  rewrite monitor_loop_cons. unfold bind. rewrite monitor_pass_run. cbn zeta.
  set (wr := EvPwrite configfd commandHigh 5 (pwrite_ret p)).
  set (rd := EvRead uiofd 4 (read_ret p)).
  set (v := wrap_u32 (status p)).
  destruct (Z.eqb_spec (pwrite_ret p) 1) as [Hpw|Hpw]; cbn [negb].
  2:{ exists [wr; EvPerror "config write:"], 0%nat. split_and!; try done.
      - cbn. lia.
      - cbn. by repeat constructor.
      - right. left. split; [|done]. exists p. split; [done|]. by intros [? _]. }
  destruct (Z.eqb_spec (read_ret p) 4) as [Hrd|Hrd]; cbn [negb].
  2:{ exists [wr; rd; EvPerror "uio read:"], 0%nat. split_and!; try done.
      - cbn. lia.
      - cbn. by repeat constructor.
      - right. left. split; [|done]. exists p. split; [done|]. by intros [_ ?]. }
  assert (Hok : pass_ok p) by done.
  assert (Hcons : ∀ l, omap ack_of (p :: l)
                       = match ack_of p with
                         | Some a => a :: omap ack_of l
                         | None => omap ack_of l
                         end) by done.
  destruct (Z.eqb_spec v 0) as [Hv|Hv].
  - set (pre := [wr; rd; EvLoad ImReg0 v]).
    assert (Hpre : loads_of pre = [(ImReg0, v)] ∧ stores_of pre = [] ∧
                   pwrites_of pre = [(configfd, commandHigh, 5)]) by done.
    destruct Hpre as (Hpl & Hps & Hpp).
    assert (Hack : ack_of p = None).
    { unfold ack_of. fold v. by rewrite Hv. }
    destruct (IH (logged s pre)) as (evs & k & Hk & Hoks & Hld & Hst & Hpwr & Hend).
    rewrite logged_app in Hend. cbn [obj logged] in Hend.
    exists (pre ++ evs), (S k).
    rewrite loads_of_app, stores_of_app, pwrites_of_app.
    rewrite Hpl, Hps, Hpp. cbn [take length map app]. rewrite Hcons, Hack.
    split_and!.
    + lia.
    + by constructor.
    + by rewrite Hld.
    + done.
    + by constructor.
    + destruct Hend as [[-> Hend]|[[Hp Hend]|[Hnot Hend]]]; auto.
  - set (pre := [wr; rd; EvLoad ImReg0 v]
                ++ (if verbose
                    then [EvPrintf Stdout "Interrupt from sources 0x%08x\n" [AInt v]]
                    else [])
                ++ [EvStore ImReg1 v]).
    assert (Hpre : loads_of pre = [(ImReg0, v)] ∧ stores_of pre = [(ImReg1, v)] ∧
                   pwrites_of pre = [(configfd, commandHigh, 5)]).
    { subst pre. by destruct verbose. }
    destruct Hpre as (Hpl & Hps & Hpp).
    assert (Hack : ack_of p = Some (ImReg1, v)).
    { unfold ack_of. fold v. by destruct (Z.eqb_spec v 0). }
    destruct (distribute_any (wrap_int v) (logged s pre))
      as (evd & Hd & Hdl & Hds & Hdp).
    rewrite logged_app in Hd. cbn [obj logged] in Hd.
    destruct Hd as [Hd|(Hnot & f & Hd)]; rewrite Hd.
    + destruct (IH (logged s (pre ++ evd)))
        as (evs & k & Hk & Hoks & Hld & Hst & Hpwr & Hend).
      rewrite logged_app in Hend. cbn [obj logged] in Hend.
      exists ((pre ++ evd) ++ evs), (S k).
      rewrite !loads_of_app, !stores_of_app, !pwrites_of_app.
      rewrite Hpl, Hps, Hpp, Hdl, Hds, Hdp. cbn [take length map app].
      rewrite Hcons, Hack.
      split_and!.
      * lia.
      * by constructor.
      * by rewrite Hld.
      * by rewrite Hst.
      * by constructor.
      * destruct Hend as [[-> Hend]|[[Hp Hend]|[Hnot Hend]]]; auto.
    + exists (pre ++ evd), 1%nat.
      rewrite !loads_of_app, !stores_of_app, !pwrites_of_app.
      rewrite Hpl, Hps, Hpp, Hdl, Hds, Hdp. cbn [take length map app].
      rewrite take_0, Hcons, Hack.
      split_and!.
      * lia.
      * by constructor.
      * done.
      * done.
      * by repeat constructor.
      * right. right. split; [done|]. by exists f.
Qed.

Lemma omap_ack_of (l : list uio_pass) :
  omap ack_of l
  = map (pair ImReg1) (filter (λ v, v ≠ 0) (map (λ p, wrap_u32 (status p)) l)).
Proof.
  induction l as [|p l IH]; [done|].
  change (omap ack_of (p :: l))
    with (match ack_of p with Some a => a :: omap ack_of l | None => omap ack_of l end).
  cbn [map]. rewrite filter_cons. unfold ack_of.
  destruct (Z.eqb_spec (wrap_u32 (status p)) 0) as [Heq|Hne].
  - rewrite decide_False by (intros ?; done). done.
  - rewrite decide_True by done. cbn [map]. f_equal. exact IH.
Qed.

(** X10: the register traffic of the monitor loop, on any object and for
    any script, however the loop ends.  The loop loads nothing but the
    status register and stores to nothing but the acknowledge register, and
    the values stored are, in order, the statuses loaded that are not zero:
    each is acknowledged once, with the value that was read, and a status
    of zero is never acknowledged. *)
Theorem monitor_loop_acknowledges_what_it_loads
    verbose configfd uiofd commandHigh script s :
  ∃ evs statuses,
    final (monitor_loop verbose configfd uiofd commandHigh script s) = logged s evs ∧
    statuses `prefix_of` map (λ p, wrap_u32 (status p)) script ∧
    loads_of evs = map (pair ImReg0) statuses ∧
    stores_of evs = map (pair ImReg1) (filter (λ v, v ≠ 0) statuses).
Proof.
  destruct (monitor_loop_any verbose configfd uiofd commandHigh script s)
    as (evs & k & Hk & _ & Hld & Hst & _ & Hend).
  exists evs, (map (λ p, wrap_u32 (status p)) (take k script)). split_and!.
  - destruct Hend as [[_ ->]|[[_ ->]|[_ [f ->]]]]; done.
  - exists (map (λ p, wrap_u32 (status p)) (drop k script)).
    by rewrite <- map_app, take_drop.
  - rewrite Hld. by rewrite map_map.
  - rewrite Hst. apply omap_ack_of.
Qed.

(** ** Confinement *)

Lemma observes_ret {A} P (a : A) : observes P (ret a).
Proof. intros s. exists []. cbn. by rewrite app_nil_r. Qed.

Lemma observes_bind {A B} P (m : M A) (k : A → M B) :
  observes P m → (∀ a, observes P (k a)) → observes P (bind m k).
Proof.
  intros Hm Hk s. destruct (Hm s) as (evs & Hobj & Hevs & HP). unfold bind.
  destruct (m s) as [a s'| | |]; cbn in Hobj, Hevs; try (by exists evs).
  destruct (Hk a s') as (evs' & Hobj' & Hevs' & HP'). exists (evs ++ evs').
  split_and!; [congruence|by rewrite Hevs', Hevs, app_assoc|by apply Forall_app].
Qed.

Lemma observes_silent {A} P (m : M A) : (∀ s, final (m s) = s) → observes P m.
Proof. intros Hm s. exists []. rewrite Hm, app_nil_r. done. Qed.

Lemma observes_trace P e : P e → observes P (trace e).
Proof. intros He s. exists [e]. cbn. split_and!; [done..|by constructor]. Qed.

Lemma observes_if {A} P (b : bool) (m1 m2 : M A) :
  observes P m1 → observes P m2 → observes P (if b then m1 else m2).
Proof. by destruct b. Qed.

Lemma observes_exit {A} P c : observes P (exit (A:=A) c).
Proof. by apply observes_silent. Qed.

Lemma observes_undefined {A} P f : observes P (undefined (A:=A) f).
Proof. by apply observes_silent. Qed.

Lemma observes_blocked {A} P : observes P (blocked (A:=A)).
Proof. by apply observes_silent. Qed.

Lemma observes_get {A} P (f : CDistributor → A) : observes P (get f).
Proof. by apply observes_silent. Qed.

Lemma observes_load_fd P i : observes P (load_fd i).
Proof.
  apply observes_silent. intros s. unfold load_fd.
  case_bool_decide; [|done]. by destruct (fd_ (obj s) !! Z.to_nat i).
Qed.

Lemma observes_FD_SET P fd set : observes P (FD_SET fd set).
Proof. apply observes_silent. intros s. unfold FD_SET. by case_bool_decide. Qed.

Lemma observes_sprintf P cap text : observes P (sprintf cap text).
Proof. apply observes_silent. intros s. unfold sprintf. by case_bool_decide. Qed.

Lemma observes_local_load P fd i : observes P (local_load fd i).
Proof.
  apply observes_silent. intros s. unfold local_load.
  case_bool_decide; [|done]. by destruct (fd !! Z.to_nat i) as [[]|].
Qed.

Lemma observes_local_store P fd i v : observes P (local_store fd i v).
Proof. apply observes_silent. intros s. unfold local_store. by case_bool_decide. Qed.

Lemma observes_sys_open P name flags :
  (∀ r, P (EvOpen name flags r)) → observes P (sys_open name flags).
Proof.
  intros HP s. unfold sys_open.
  destruct (_ && _); eexists [_]; cbn; (split_and!; [done..|by constructor]).
Qed.

Lemma observes_sys_select P nfds wfds timeout :
  (∀ ready, P (EvSelect nfds wfds timeout ready)) →
  observes P (sys_select nfds wfds timeout).
Proof. intros HP s. eexists [_]. cbn. split_and!; [done..|by constructor]. Qed.

Create HintDb observes.
#[export] Hint Resolve observes_ret observes_exit observes_undefined observes_blocked
  observes_get observes_load_fd observes_FD_SET observes_sprintf observes_local_load
  observes_local_store : observes.

Ltac observes_step :=
  lazymatch goal with
  | |- observes _ (bind _ _) => apply observes_bind; [|intros ?]
  | |- observes _ (if _ then _ else _) => apply observes_if
  | |- observes _ (trace _) => apply observes_trace; cbn; done
  | |- observes _ (sys_open _ _) => apply observes_sys_open; intros ?; cbn; done
  | |- observes _ (sys_select _ _ _) => apply observes_sys_select; intros ?; cbn; done
  | |- observes _ _ => solve [auto with observes]
  end.
Ltac solve_observes := cbn beta; repeat (observes_step; cbn beta).

(** [distribute] is confined to its poll and its writes. *)
Lemma observes_distribute P irqSources :
  (∀ nfds wfds timeout ready, P (EvSelect nfds wfds timeout ready)) →
  (∀ fd data, P (EvWrite fd data)) →
  observes P (distribute irqSources).
Proof.
  intros Hsel Hwr.
  assert (Hfd : ∀ todo i wfds, observes P (fdset_loop todo i wfds)).
  { induction todo as [|todo IH]; intros i wfds; cbn [fdset_loop]; [solve_observes|].
    pose proof (λ w, IH (i + 1) w). solve_observes. }
  assert (Hw : ∀ ready todo i, observes P (write_loop todo i irqSources ready)).
  { intros ready. induction todo as [|todo IH]; intros i; cbn [write_loop]; [solve_observes|].
    pose proof (IH (i + 1)). unfold sys_write.
    apply observes_bind; [solve_observes|intros fd].
    apply observes_bind; [|done].
    repeat apply observes_if; auto using observes_ret, observes_trace. }
  unfold distribute.
  apply observes_bind; [solve_observes|intros n].
  apply observes_bind; [done|intros wfds].
  apply observes_bind; [solve_observes|intros h].
  apply observes_bind; [by apply observes_sys_select|done].
Qed.

Lemma observes_monitor_loop verbose configfd uiofd commandHigh script :
  observes (rearms_with commandHigh)
    (monitor_loop verbose configfd uiofd commandHigh script).
Proof.
  induction script as [|p script IH]; cbn [monitor_loop]; [solve_observes|].
  apply observes_bind; [|done].
  unfold monitor_pass, perror, printf.
  pose proof (observes_distribute (rearms_with commandHigh)
                (wrap_int (wrap_u32 (status p))) (λ _ _ _ _, I) (λ _ _, I)).
  solve_observes.
Qed.

Lemma observes_monitorInterrupts verbose uioDevice pread_ret pread_byte script :
  observes (rearms_with (wrap_u8 (Z.land pread_byte (Z.lnot 4))))
    (monitorInterrupts verbose uioDevice pread_ret pread_byte script).
Proof.
  unfold monitorInterrupts, perror, printf.
  pose proof (observes_monitor_loop verbose).
  solve_observes.
Qed.

(** ** Ways to end *)

Lemma halts_bind {A B} (m : M A) (k : A → M B) :
  exits_1 m → (∀ a, halts (k a)) → halts (bind m k).
Proof.
  intros Hm Hk s. unfold bind. specialize (Hm s).
  destruct (m s) as [a s'| | |]; [apply Hk|done..].
Qed.

Lemma halts_if {A} (b : bool) (m1 m2 : M A) :
  halts m1 → halts m2 → halts (if b then m1 else m2).
Proof. by destruct b. Qed.

Lemma halts_exit {A} : halts (exit (A:=A) 1).
Proof. done. Qed.

Lemma exits_1_trace e : exits_1 (trace e).
Proof. done. Qed.

Lemma exits_1_sprintf cap text : exits_1 (sprintf cap text).
Proof. intros s. unfold sprintf. by case_bool_decide. Qed.

Lemma exits_1_sys_open name flags : exits_1 (sys_open name flags).
Proof. intros s. unfold sys_open. by destruct (_ && _). Qed.

Lemma exits_1_distribute irqSources : exits_1 (distribute irqSources).
Proof.
  intros s. destruct (distribute_any irqSources s) as (evs & [->|(_ & f & ->)] & _); done.
Qed.

Lemma exits_1_monitor_pass verbose configfd uiofd commandHigh p :
  exits_1 (monitor_pass verbose configfd uiofd commandHigh p).
Proof.
  intros s. rewrite monitor_pass_run. cbn zeta.
  repeat (destruct (negb _); [done|]).
  destruct (_ =? 0); [done|]. apply exits_1_distribute.
Qed.

Lemma halts_monitor_loop verbose configfd uiofd commandHigh script :
  halts (monitor_loop verbose configfd uiofd commandHigh script).
Proof.
  induction script as [|p script IH]; cbn [monitor_loop]; [done|].
  apply halts_bind; [apply exits_1_monitor_pass|done].
Qed.

Lemma halts_monitorInterrupts verbose uioDevice pread_ret pread_byte script :
  halts (monitorInterrupts verbose uioDevice pread_ret pread_byte script).
Proof.
  unfold monitorInterrupts, perror, printf.
  repeat first
    [ apply halts_exit
    | apply halts_monitor_loop
    | apply halts_if
    | apply halts_bind; [first [apply exits_1_sprintf|apply exits_1_sys_open
                               |apply exits_1_trace]|intros ?] ].
Qed.

Lemma wrap_u8_clear_bit2 x :
  let b := wrap_u8 (Z.land x (Z.lnot 4)) in
  0 ≤ b < 256 ∧ Z.testbit b 2 = false ∧
  ∀ k, 0 ≤ k < 8 → k ≠ 2 → Z.testbit b k = Z.testbit x k.
Proof.
  cbn zeta. unfold wrap_u8. split; [|split].
  - apply Z.mod_pos_bound. lia.
  - rewrite Z.mod_pow2_bits_low by lia. rewrite Z.land_spec.
    change (Z.testbit (Z.lnot 4) 2) with false. apply andb_false_r.
  - intros k Hk Hne. rewrite Z.mod_pow2_bits_low by lia.
    rewrite Z.land_spec, Z.lnot_spec by lia.
    assert (Z.testbit 4 k = false) as ->; [|by rewrite andb_true_r].
    assert (k = 0 ∨ k = 1 ∨ k = 3 ∨ k = 4 ∨ k = 5 ∨ k = 6 ∨ k = 7)
      as [->|[->|[->|[->|[->|[->| ->]]]]]] by lia; reflexivity.
Qed.

Lemma pwrites_of_Forall b (Q : Z * Z * Z → Prop) evs :
  (∀ fd off, Q (fd, b, off) ↔ off = 5) →
  Forall (rearms_with b) evs → Forall Q (pwrites_of evs).
Proof.
  intros HQ. induction 1 as [|e evs He _ IH]; [constructor|].
  destruct e; try exact IH.
  change (Forall Q ((fd, byte, offset) :: pwrites_of evs)).
  destruct He as [-> ->]. constructor; [by apply HQ|done].
Qed.

(** X11: [monitorInterrupts] does not return to its caller: it waits in
    [read], or it calls [exit], and then with the code 1 (or its behaviour
    is undefined).  Each [pwrite] it makes, one at the start of every pass,
    writes at offset 5 of the configuration space the byte read from there
    at the start with bit 2 (interrupt disable) cleared and the other seven
    bits as they were read. *)
Theorem monitorInterrupts_rearms verbose uioDevice pread_ret pread_byte script s :
  let run := monitorInterrupts verbose uioDevice pread_ret pread_byte script s in
  match run with Returned _ _ => False | Exited c _ => c = 1 | _ => True end ∧
  ∃ evs,
    log (world (final run)) = log (world s) ++ evs ∧
    Forall (λ '(fd, byte, off),
              off = 5 ∧ 0 ≤ byte < 256 ∧ Z.testbit byte 2 = false ∧
              ∀ k, 0 ≤ k < 8 → k ≠ 2 → Z.testbit byte k = Z.testbit pread_byte k)
           (pwrites_of evs).
Proof.
  cbn zeta. split; [apply halts_monitorInterrupts|].
  destruct (observes_monitorInterrupts verbose uioDevice pread_ret pread_byte script s)
    as (evs & _ & Hlog & Hevs).
  exists evs. split; [done|].
  eapply pwrites_of_Forall; [|exact Hevs].
  intros fd off. pose proof (wrap_u8_clear_bit2 pread_byte) as (? & ? & ?).
  naive_solver.
Qed.

(** ** The self-test thread *)

Lemma traces_ret {A} P (a : A) : traces P (ret a).
Proof. intros s. exists []. by rewrite logged_nil. Qed.

Lemma traces_silent {A} P (m : M A) : (∀ s, final (m s) = s) → traces P m.
Proof. intros Hm s. exists []. by rewrite Hm, logged_nil. Qed.

Lemma traces_trace P e : P e → traces P (trace e).
Proof. intros He s. exists [e]. split; [done|by constructor]. Qed.

Lemma traces_bind {A B} P (m : M A) (k : A → M B) :
  traces P m → (∀ a, traces P (k a)) → traces P (bind m k).
Proof.
  intros Hm Hk s. destruct (Hm s) as (evs & Hevs & HP). unfold bind.
  destruct (m s) as [a s'| | |]; cbn in Hevs; try (by exists evs).
  destruct (Hk a s') as (evs' & Hevs' & HP'). exists (evs ++ evs').
  split; [|by apply Forall_app]. by rewrite Hevs', Hevs, logged_app.
Qed.

Lemma traces_observes {A} P (m : M A) : traces P m → observes P m.
Proof.
  intros Hm s. destruct (Hm s) as (evs & -> & HP). by exists evs.
Qed.

Lemma traces_selfTest_loop imReg0 fd reads : ∀ counter irq,
  traces (loop_event imReg0) (selfTest_loop reads imReg0 fd counter irq).
Proof.
  induction reads as [|bytesRead reads IH]; intros counter irq; cbn [selfTest_loop].
  - apply traces_bind; [by apply traces_trace|intros _].
    apply traces_bind; [by apply traces_trace|intros _].
    apply traces_bind; [|intros _; by apply traces_silent].
    apply traces_silent. intros s. unfold local_load.
    case_bool_decide; [|done]. by destruct (fd !! Z.to_nat irq) as [[]|].
  - apply traces_bind; [by apply traces_trace|intros _].
    apply traces_bind; [by apply traces_trace|intros _].
    apply traces_bind.
    { apply traces_silent. intros s. unfold local_load.
      case_bool_decide; [|done]. by destruct (fd !! Z.to_nat irq) as [[]|]. }
    intros f. apply traces_bind; [by apply traces_trace|intros _].
    apply traces_bind; [by apply traces_silent|intros n].
    destruct (selfTest_verdict n irq bytesRead).
    + apply traces_ret.
    + apply traces_bind; [by apply traces_trace|intros _]. by apply traces_silent.
    + apply IH.
Qed.

Lemma loop_event_quiet imReg0 evs :
  Forall (loop_event imReg0) evs →
  opens_of evs = [] ∧ closes_of evs = [] ∧ writes_of evs = [].
Proof.
  induction 1 as [|e evs He _ IH]; [done|]. by destruct e.
Qed.

Lemma selfTest_event_quiet imReg0 evs :
  Forall (selfTest_event imReg0) evs →
  closes_of evs = [] ∧ writes_of evs = [] ∧ removes_of evs = [].
Proof.
  induction 1 as [|e evs He _ IH]; [done|]. by destruct e.
Qed.

Lemma observes_weaken {A} (P Q : event → Prop) (m : M A) :
  (∀ e, P e → Q e) → observes P m → observes Q m.
Proof.
  intros HPQ Hm s. destruct (Hm s) as (evs & ? & ? & HP). exists evs.
  split_and!; [done..|]. eapply Forall_impl; eauto.
Qed.

Lemma observes_selfTest imReg0 reads :
  observes (selfTest_event imReg0) (selfTest imReg0 reads).
Proof.
  assert (Hopen : ∀ path todo i fd,
            observes (selfTest_event imReg0) (selfTest_open todo i path fd)).
  { intros path. induction todo as [|todo IH]; intros i fd; cbn [selfTest_open];
      [solve_observes|].
    pose proof (λ fd', IH (i + 1) fd').
    unfold openPipe, sprintf_name, fprintf. solve_observes. }
  unfold selfTest.
  apply observes_bind; [solve_observes|intros path].
  apply observes_bind; [solve_observes|intros n].
  apply observes_bind; [done|intros fd].
  apply (observes_weaken (loop_event imReg0)); [by intros [| | | | | | | | | | |[]| |]|].
  apply traces_observes, traces_selfTest_loop.
Qed.

(** The thread ends the process with the code 1 only. *)
Lemma exits_1_bind {A B} (m : M A) (k : A → M B) :
  exits_1 m → (∀ a, exits_1 (k a)) → exits_1 (bind m k).
Proof.
  intros Hm Hk s. unfold bind. specialize (Hm s).
  destruct (m s) as [a s'| | |]; [apply Hk|done..].
Qed.

Lemma exits_1_openPipe path n : exits_1 (openPipe path n).
Proof.
  unfold openPipe, sprintf_name, fprintf.
  apply exits_1_bind; [apply exits_1_sprintf|intros name].
  apply exits_1_bind; [apply exits_1_sys_open|intros fd].
  destruct (fd <? 0); [|done].
  apply exits_1_bind; [apply exits_1_trace|done].
Qed.

Lemma exits_1_selfTest_open path todo : ∀ i fd, exits_1 (selfTest_open todo i path fd).
Proof.
  induction todo as [|todo IH]; intros i fd; cbn [selfTest_open]; [done|].
  apply exits_1_bind; [apply exits_1_openPipe|intros f].
  apply exits_1_bind; [|intros fd'; apply IH].
  intros s. unfold local_store. by case_bool_decide.
Qed.

Lemma exits_1_selfTest_loop imReg0 fd reads : ∀ counter irq,
  exits_1 (selfTest_loop reads imReg0 fd counter irq).
Proof.
  assert (Hload : ∀ irq, exits_1 (local_load fd irq)).
  { intros irq s. unfold local_load. case_bool_decide; [|done].
    by destruct (fd !! Z.to_nat irq) as [[]|]. }
  induction reads as [|bytesRead reads IH]; intros counter irq; cbn [selfTest_loop].
  - apply exits_1_bind; [apply exits_1_trace|intros _].
    apply exits_1_bind; [apply exits_1_trace|intros _].
    apply exits_1_bind; [apply Hload|done].
  - apply exits_1_bind; [apply exits_1_trace|intros _].
    apply exits_1_bind; [apply exits_1_trace|intros _].
    apply exits_1_bind; [apply Hload|intros f].
    apply exits_1_bind; [apply exits_1_trace|intros _].
    apply exits_1_bind; [done|intros n].
    unfold selfTest_verdict.
    destruct (bytesRead =? 0); [done|].
    destruct (negb (bytesRead =? 1)).
    + apply exits_1_bind; [apply exits_1_trace|done].
    + destruct (irq + 1 =? n); apply IH.
Qed.

Lemma exits_1_selfTest imReg0 reads : exits_1 (selfTest imReg0 reads).
Proof.
  unfold selfTest.
  apply exits_1_bind; [done|intros path].
  apply exits_1_bind; [done|intros n].
  apply exits_1_bind; [apply exits_1_selfTest_open|intros fd].
  apply exits_1_selfTest_loop.
Qed.

(** X12: the self-test thread, on any object and whatever its reads
    return.  Up to the point where it returns, blocks in [read] or calls
    [exit], the thread has only printed, opened FIFOs read-only, stored to
    the register it was handed and read one byte at a time: it has not
    modified the distributor object, not written to a FIFO, not removed a
    name and not closed a descriptor, so that its descriptors are still
    open when it returns.  When it ends the process (a FIFO it cannot
    open, a read that returns neither 0 nor 1), it does so with [exit(1)],
    and this [exit] runs the destructor of the distributor on the thread:
    [cleanup] closes the descriptors of the channel set and sweeps the
    FIFO names. *)
Theorem selfTest_confined imReg0 reads s :
  let run := selfTest imReg0 reads s in
  (∃ evs,
     log (world (final run)) = log (world s) ++ evs ∧
     Forall (selfTest_event imReg0) evs ∧
     closes_of evs = [] ∧ writes_of evs = [] ∧ removes_of evs = []) ∧
  obj (final run) = obj s ∧
  ∀ code s2, run = Exited code s2 →
    code = 1 ∧
    (teardown_ready (obj s) → at_exit run = Exited 1 (after_cleanup s2)).
Proof.
  cbn zeta.
  destruct (observes_selfTest imReg0 reads s) as (evs & Hobj & Hlog & Hevs).
  split_and!; [|done|].
  - exists evs. destruct (selfTest_event_quiet _ _ Hevs) as (? & ? & ?). done.
  - intros code s2 Hrun. pose proof (exits_1_selfTest imReg0 reads s) as Hcode.
    rewrite Hrun in *. cbn [final] in Hobj. split; [done|].
    intros Hready. subst code. cbn [at_exit]. unfold CDistributor_delete.
    rewrite cleanup_spec by (by rewrite Hobj). done.
Qed.

(** A protocol violation on three channels: at the call of [exit] the
    channels are open; after [exit] has run the destructor they are closed
    and the directory is empty. *)
Example selfTest_exit_runs_cleanup :
  ∃ s2 s3,
    selfTest ImReg0 [1; -1] (demo_after_init 3) = Exited 1 s2 ∧
    closes_of (log (world s2)) = [] ∧
    at_exit (selfTest ImReg0 [1; -1] (demo_after_init 3)) = Exited 1 s3 ∧
    closes_of (log (world s3)) = [3; 4; 5] ∧
    elements (files (world s3)) = [] ∧
    slots (obj s3) 0 3 = [-1; -1; -1].
Proof. eexists _, _. split_and!; vm_compute; reflexivity. Qed.

(** The opening phase of [selfTest] when every FIFO is there and may be
    opened: one new descriptor per source. *)
Lemma selfTest_open_spec path todo : ∀ i fd s,
  0 ≤ i → i + Z.of_nat todo ≤ MAX_IRQS → (String.length path ≤ 253)%nat →
  length fd = Z.to_nat MAX_IRQS →
  (∀ j, i ≤ j < i + Z.of_nat todo →
     pipe_name path j ∈ files (world s) ∧ open_ok (world s) (pipe_name path j) = true) →
  ∃ fd' s' evs,
    selfTest_open todo i path fd s = Returned fd' s' ∧
    obj s' = obj s ∧
    log (world s') = log (world s) ++ evs ∧
    stores_of evs = [] ∧
    length (opens_of evs) = todo ∧ NoDup (opens_of evs) ∧
    (∀ f, f ∈ opens_of evs →
       0 ≤ f ∧ is_open (fdtable (world s')) (Z.to_nat f) ∧
       ¬ is_open (fdtable (world s)) (Z.to_nat f)) ∧
    (∀ k x, fdtable (world s) !! k = Some (Some x) →
            fdtable (world s') !! k = Some (Some x)) ∧
    length fd' = length fd ∧
    (∀ j, i ≤ j < i + Z.of_nat todo → ∃ f, fd' !! Z.to_nat j = Some (Some f)) ∧
    (∀ j, 0 ≤ j < i → fd' !! Z.to_nat j = fd !! Z.to_nat j).
Proof.
  induction todo as [|todo IH]; intros i fd s Hi Hmax Hpath Hlen Hthere.
  { exists fd, s, []. cbn. rewrite app_nil_r.
    split_and!; try done; try lia.
    - constructor.
    - intros f Hf. by apply elem_of_nil in Hf. }
  cbn [selfTest_open].
  destruct (Hthere i) as [Hin Hok]; [lia|].
  set (name := pipe_name path i) in *.
  set (f0 := Z.of_nat (first_free (fdtable (world s)))).
  set (s1 := mkState (obj s)
               (emit (EvOpen name O_RDONLY f0)
                  (set_fdtable (alloc_fd name (fdtable (world s))) (world s)))).
  assert (Hopen : openPipe path i s = Returned f0 s1).
  { unfold openPipe, sprintf_name, sprintf. fold name.
    rewrite bool_decide_eq_true_2.
    2:{ subst name. rewrite pipe_name_length.
        pose proof (two_digits i). unfold MAX_IRQS in *. lia. }
    unfold bind at 1, ret at 1. unfold bind at 1, sys_open.
    rewrite bool_decide_eq_true_2 by done. rewrite Hok. cbn [andb].
    fold f0. fold s1. destruct (Z.ltb_spec f0 0); [lia|done]. }
  unfold bind at 1. rewrite Hopen. unfold bind at 1, local_store.
  rewrite bool_decide_eq_true_2 by lia. unfold ret at 1.
  destruct (IH (i + 1) (<[Z.to_nat i := Some f0]> fd) s1)
    as (fd' & s' & evs & Hrun & Hobj & Hlog & Hst & Hcnt & Hnd & Hnew & Hkeep
        & Hlen' & Hset & Hframe).
  { lia. } { lia. } { done. } { by rewrite length_insert. }
  { intros j Hj. apply Hthere. lia. }
  assert (Hf0 : is_open (fdtable (world s1)) (Z.to_nat f0)).
  { exists name. subst f0 s1. cbn. rewrite Nat2Z.id. apply alloc_fd_new. }
  exists fd', s', (EvOpen name O_RDONLY f0 :: evs).
  change (opens_of (EvOpen name O_RDONLY f0 :: evs)) with (f0 :: opens_of evs).
  split_and!.
  - done.
  - by rewrite Hobj.
  - rewrite Hlog. subst s1. cbn. by rewrite <- app_assoc.
  - exact Hst.
  - cbn. by rewrite Hcnt.
  - constructor; [|done]. intros Hf. by apply Hnew in Hf as (_ & _ & Hno).
  - intros f Hf. apply elem_of_cons in Hf as [->|Hf].
    + split_and!; [lia| |].
      * destruct Hf0 as [x Hx]. exists x. by apply Hkeep.
      * subst f0. rewrite Nat2Z.id. apply first_free_not_open.
    + destruct (Hnew f Hf) as (? & ? & Hno). split_and!; [done..|].
      intros [x Hx]. apply Hno. exists x. subst s1. cbn. by apply alloc_fd_old.
  - intros k x Hk. apply Hkeep. subst s1. cbn. by apply alloc_fd_old.
  - by rewrite Hlen', length_insert.
  - intros j Hj. destruct (decide (j = i)) as [->|Hne]; [|apply Hset; lia].
    exists f0. rewrite Hframe by lia. apply list_lookup_insert_eq.
    unfold MAX_IRQS in *. lia.
  - intros j Hj. rewrite Hframe by lia. apply list_lookup_insert_ne. lia.
Qed.

Lemma selfTest_loop_blocks imReg0 fd (k : nat) : ∀ counter irq s,
  0 ≤ irq < irqCount_ (obj s) → irqCount_ (obj s) ≤ MAX_IRQS →
  (∀ i, 0 ≤ i < irqCount_ (obj s) → ∃ f, fd !! Z.to_nat i = Some (Some f)) →
  ∃ s', selfTest_loop (replicate k 1) imReg0 fd counter irq s = Blocked s'.
Proof.
  induction k as [|k IH]; intros counter irq s Hirq Hmax Hfd.
  - destruct (Hfd irq Hirq) as [f Hf]. cbn [replicate selfTest_loop].
    unfold bind, printf, trace, act, local_load.
    rewrite bool_decide_eq_true_2 by lia. rewrite Hf. by eexists.
  - destruct (Hfd irq Hirq) as [f Hf]. cbn [replicate].
    rewrite (selfTest_loop_step _ _ _ _ _ _ _ _ Hirq Hmax Hf). cbn [Z.eqb Pos.eqb].
    apply IH; cbn [obj]; [apply Z.mod_pos_bound; lia|done..].
Qed.

(** X13: the self-test on a distributor whose [init] has just succeeded.
    The thread opens one descriptor of its own per source, all different
    and none of them one of the distributor's; it raises the sources round
    robin, 0, 1, ..., [irqCount - 1], 0, ..., one per byte read; it returns
    when a read delivers nothing, and its descriptors are still open then;
    as long as every read delivers one byte it does not return. *)
Theorem selfTest_after_init dir irqCount s0 s1 imReg0 (k : nat) :
  array_ok (obj s0) → (String.length dir ≤ 243)%nat → 0 < irqCount →
  init dir irqCount s0 = Returned true s1 →
  (∃ s2 evs,
     selfTest imReg0 (replicate k 1 ++ [0]) s1 = Returned tt s2 ∧
     obj s2 = obj s1 ∧
     log (world s2) = log (world s1) ++ evs ∧
     stores_of evs
     = map (λ j, (imReg0, 2 ^ (j `mod` irqCount))) (seqZ 0 (Z.of_nat k + 1)) ∧
     length (opens_of evs) = Z.to_nat irqCount ∧ NoDup (opens_of evs) ∧
     ∀ f, f ∈ opens_of evs →
       0 ≤ f ∧ is_open (fdtable (world s2)) (Z.to_nat f) ∧
       f ∉ slots (obj s1) 0 (Z.to_nat irqCount)) ∧
  ∃ s3, selfTest imReg0 (replicate k 1) s1 = Blocked s3.
Proof.
  intros Harr Hdir Hpos Hinit.
  assert (Hmax : irqCount ≤ MAX_IRQS) by (by eapply init_returned).
  destruct (init_post dir irqCount s0 Harr Hmax Hdir)
    as (b & s1' & m & Hrun & Hm & Hb & Hp & Hc & _ & (_ & Hoo & _) & _ & _ & Hch & _).
  rewrite Hinit in Hrun. injection Hrun as <- <-.
  assert (m = irqCount) as -> by (destruct Hb as [Hb _]; rewrite Hb by done; lia).
  set (path := dir +:+ "/interrupt") in *.
  destruct (selfTest_open_spec path (Z.to_nat irqCount) 0
              (replicate (Z.to_nat MAX_IRQS) None) s1)
    as (fd & s2 & evo & Hopen & Hobj & Hlog & Hst & Hcnt & Hnd & Hnew & Hkeep & _ & Hset & _).
  { done. } { lia. }
  { subst path. rewrite string_app_length. cbn. lia. }
  { by rewrite length_replicate. }
  { intros j Hj. destruct (Hch j) as (Hperm & fd & _ & _ & _ & _ & Hin); [lia|].
    split; [done|]. rewrite Hoo. unfold permitted in Hperm.
    by apply andb_true_iff in Hperm as [_ ?]. }
  assert (Hset' : ∀ i, 0 ≤ i < irqCount_ (obj s2) → ∃ f, fd !! Z.to_nat i = Some (Some f)).
  { intros i Hi. apply Hset. rewrite Hobj, Hc in Hi. lia. }
  assert (Hirq : 0 ≤ 0 < irqCount_ (obj s2)) by (rewrite Hobj, Hc; lia).
  assert (Hmax2 : irqCount_ (obj s2) ≤ MAX_IRQS) by (by rewrite Hobj, Hc).
  assert (Hsplit : ∀ reads, selfTest imReg0 reads s1 = selfTest_loop reads imReg0 fd 0 0 s2).
  { intros reads. unfold selfTest. unfold bind at 1, get at 1. unfold bind at 1, get at 1.
    unfold bind. rewrite Hp, Hc, Hopen. done. }
  split.
  - destruct (selfTest_round_robin imReg0 fd k 0 0 s2 Hirq Hmax2 Hset')
      as (s3 & evl & Hloop & Hobj3 & Hlog3 & Hst3).
    destruct (traces_selfTest_loop imReg0 fd (replicate k 1 ++ [0]) 0 0 s2)
      as (evl' & Hfin & Hquiet).
    rewrite Hloop in Hfin. cbn [final] in Hfin.
    assert (evl' = evl) as ->.
    { rewrite Hfin in Hlog3. cbn in Hlog3. by apply app_inv_head in Hlog3. }
    destruct (loop_event_quiet _ _ Hquiet) as (Hno & _ & _).
    exists s3, (evo ++ evl). rewrite Hsplit.
    unfold opens_of in *. rewrite omap_app, Hno, app_nil_r.
    rewrite stores_of_app, Hst, Hst3, Hobj, Hc. cbn [app].
    split_and!; try done.
    + congruence.
    + by rewrite Hlog3, Hlog, app_assoc.
    + intros f Hf. destruct (Hnew f Hf) as (Hf0 & Hopen2 & Hno1).
      split_and!; [done| |].
      * rewrite Hfin. exact Hopen2.
      * intros Hin. apply elem_of_slots in Hin as (j & Hj & Hfd).
        destruct (Hch (Z.of_nat j)) as (_ & fd0 & Hfd0 & _ & Htab & _); [lia|].
        rewrite Nat2Z.id, Hfd in Hfd0. injection Hfd0 as <-.
        apply Hno1. by eexists.
  - rewrite Hsplit. by apply selfTest_loop_blocks.
Qed.

Lemma selfTest_after_init_witness :
  (∃ s2 evs,
     selfTest ImReg0 (replicate 4 1 ++ [0]) (demo_after_init 3) = Returned tt s2 ∧
     obj s2 = obj (demo_after_init 3) ∧
     log (world s2) = log (world (demo_after_init 3)) ++ evs ∧
     stores_of evs
     = map (λ j, (ImReg0, 2 ^ (j `mod` 3))) (seqZ 0 (Z.of_nat 4 + 1)) ∧
     length (opens_of evs) = Z.to_nat 3 ∧ NoDup (opens_of evs) ∧
     ∀ f, f ∈ opens_of evs →
       0 ≤ f ∧ is_open (fdtable (world s2)) (Z.to_nat f) ∧
       f ∉ slots (obj (demo_after_init 3)) 0 (Z.to_nat 3)) ∧
  ∃ s3, selfTest ImReg0 (replicate 4 1) (demo_after_init 3) = Blocked s3.
Proof.
  apply (selfTest_after_init "." 3 demo_state (demo_after_init 3) ImReg0 4).
  - reflexivity.
  - cbn. lia.
  - lia.
  - vm_compute. reflexivity.
Defined.

(** ** The end of the process *)






(** ** The command line *)

Lemma parse_loop_last stoi c option :
  parse_loop stoi c [option]
  = match apply_option stoi c option "" with
    | Parsed c' => Parsed c'
    | r => r
    end.
Proof. reflexivity. Qed.

Lemma parse_loop_next stoi c option next rest :
  parse_loop stoi c (option :: next :: rest)
  = if has_argument next then
      match apply_option stoi c option next with
      | Parsed c' => parse_loop stoi c' rest
      | r => r
      end
    else
      match apply_option stoi c option "" with
      | Parsed c' => parse_loop stoi c' (next :: rest)
      | r => r
      end.
Proof. reflexivity. Qed.

(** Induction on a command line the way the loop walks it: one token, or
    two, at a time. *)
Lemma tokens_ind (P : list string → Prop) :
  P [] → (∀ o, P [] → P [o]) →
  (∀ o n r, P r → P (n :: r) → P (o :: n :: r)) →
  ∀ l, P l.
Proof.
  intros H0 H1 H2 l.
  assert (P l ∧ ∀ o, P (o :: l)) as [? _]; [|done].
  induction l as [|n r [IH1 IH2]]; [by auto|].
  split; [done|]. intros o. by apply H2.
Qed.

Lemma option_names_dash t : t ∈ option_names → has_argument t = false.
Proof.
  unfold option_names. rewrite !elem_of_cons, elem_of_nil.
  intros [->|[->|[->|[->|[->|[->|[]]]]]]]; reflexivity.
Qed.

(** What one option does, by name. *)
Lemma apply_option_Parsed stoi c option arg c' :
  apply_option stoi c option arg = Parsed c' →
  option ∈ option_names ∧
  conf_t.device c' = (if String.eqb option "-device" then arg else conf_t.device c) ∧
  conf_t.dirName c' = (if String.eqb option "-dir" then arg else conf_t.dirName c) ∧
  (if String.eqb option "-vectors" then stoi arg = Some (conf_t.irqCount c')
   else conf_t.irqCount c' = conf_t.irqCount c) ∧
  (if String.eqb option "-axi"
   then ∃ v, stoi arg = Some v ∧ conf_t.axiAddr c' = wrap_u32 v
   else conf_t.axiAddr c' = conf_t.axiAddr c) ∧
  conf_t.selfTest c' = (String.eqb option "-selftest" || conf_t.selfTest c) ∧
  conf_t.verbose c' = (String.eqb option "-verbose" || conf_t.verbose c).
Proof.
  unfold apply_option, option_names.
  destruct (String.eqb_spec option "-device") as [->|?].
  { intros [= <-]. cbn. split_and!; try done. set_solver. }
  destruct (String.eqb_spec option "-dir") as [->|?].
  { intros [= <-]. cbn. split_and!; try done. set_solver. }
  destruct (String.eqb_spec option "-vectors") as [->|?].
  { destruct (stoi arg) as [v|] eqn:Hv; intros [= <-]. cbn.
    split_and!; try done. set_solver. }
  destruct (String.eqb_spec option "-axi") as [->|?].
  { destruct (stoi arg) as [v|] eqn:Hv; intros [= <-]. cbn.
    split_and!; try done; [set_solver|by exists v]. }
  destruct (String.eqb_spec option "-selftest") as [->|?].
  { intros [= <-]. cbn. split_and!; try done. set_solver. }
  destruct (String.eqb_spec option "-verbose") as [->|?].
  { intros [= <-]. cbn. split_and!; try done. set_solver. }
  done.
Qed.

Lemma apply_option_cases stoi c option arg :
  match apply_option stoi c option arg with
  | Parsed _ => option ∈ option_names
  | ShowHelp => option ∉ option_names
  | Thrown => (option = "-vectors" ∨ option = "-axi") ∧ stoi arg = None
  | BadArgv => False
  end.
Proof.
  unfold apply_option, option_names.
  destruct (String.eqb_spec option "-device") as [->|?]; [set_solver|].
  destruct (String.eqb_spec option "-dir") as [->|?]; [set_solver|].
  destruct (String.eqb_spec option "-vectors") as [->|?].
  { destruct (stoi arg); [set_solver|auto]. }
  destruct (String.eqb_spec option "-axi") as [->|?].
  { destruct (stoi arg); [set_solver|auto]. }
  destruct (String.eqb_spec option "-selftest") as [->|?]; [set_solver|].
  destruct (String.eqb_spec option "-verbose") as [->|?]; [set_solver|].
  set_solver.
Qed.

(** X15: command lines compose.  Parsing [a] followed by [b] is parsing
    [a] and then, with the configuration this gives, parsing [b], provided
    [b] is empty or starts with a token that begins with a dash (a first
    token of another kind would be taken for the argument of the last
    option of [a]); an end by [showHelp] or by an exception in [a] is the
    end of the whole. *)
Theorem parse_loop_app stoi a : ∀ c b,
  starts_afresh b →
  parse_loop stoi c (a ++ b)
  = match parse_loop stoi c a with
    | Parsed c' => parse_loop stoi c' b
    | r => r
    end.
Proof.
  induction a as [|o _|o n r IHr IHnr] using tokens_ind; intros c b Hb.
  - done.
  - destruct b as [|t b'].
    + rewrite app_nil_r. by destruct (parse_loop stoi c [o]).
    + change ([o] ++ t :: b') with (o :: t :: b').
      rewrite parse_loop_next, parse_loop_last. cbn in Hb. rewrite Hb.
      by destruct (apply_option stoi c o "").
  - change ((o :: n :: r) ++ b) with (o :: n :: (r ++ b)).
    rewrite !parse_loop_next. destruct (has_argument n).
    + destruct (apply_option stoi c o n); [by apply IHr|done..].
    + destruct (apply_option stoi c o ""); [|done..].
      change (n :: r ++ b) with ((n :: r) ++ b). by apply IHnr.
Qed.

Lemma parse_loop_app_witness :
  parse_loop stoi_digit conf_default (["-vectors"; "8"; "-dir"] ++ ["-verbose"])
  = match parse_loop stoi_digit conf_default ["-vectors"; "8"; "-dir"] with
    | Parsed c' => parse_loop stoi_digit c' ["-verbose"]
    | r => r
    end.
Proof.
  apply (parse_loop_app stoi_digit ["-vectors"; "8"; "-dir"] conf_default ["-verbose"]).
  reflexivity.
Defined.

Lemma fields_follow_step stoi tokens r c o arg c1 c' :
  apply_option stoi c o arg = Parsed c1 →
  fields_follow stoi r c1 c' →
  (∀ x, x ∈ option_names → x ∈ tokens ↔ x = o ∨ x ∈ r) →
  fields_follow stoi tokens c c'.
Proof.
  intros Hstep (Hdev & Hdir & Hvec & Hvec' & Haxi & Haxi' & Hself & Hverb) Hin.
  apply apply_option_Parsed in Hstep as (_ & Sdev & Sdir & Svec & Saxi & Sself & Sverb).
  assert (Hn : ∀ x, x ∈ option_names → x ∉ tokens ↔ x ≠ o ∧ x ∉ r).
  { intros x Hx. rewrite (Hin x Hx). tauto. }
  unfold fields_follow.
  rewrite !Hn, !Hin by (unfold option_names; set_solver).
  split_and!.
  - intros [Ho Hr]. rewrite Hdev, Sdev by done.
    by destruct (String.eqb_spec o "-device").
  - intros [Ho Hr]. rewrite Hdir, Sdir by done.
    by destruct (String.eqb_spec o "-dir").
  - intros [Ho Hr]. rewrite Hvec by done.
    by destruct (String.eqb_spec o "-vectors").
  - intros [Ho|Hr]; [|by apply Hvec'].
    destruct (decide ("-vectors" ∈ r)) as [?|Hr]; [by apply Hvec'|].
    rewrite Hvec by done. subst o. cbn in Svec. by exists arg.
  - intros [Ho Hr]. rewrite Haxi by done.
    by destruct (String.eqb_spec o "-axi").
  - intros [Ho|Hr]; [|by apply Haxi'].
    destruct (decide ("-axi" ∈ r)) as [?|Hr]; [by apply Haxi'|].
    rewrite Haxi by done. subst o. cbn in Saxi. destruct Saxi as (v & _ & ->).
    apply Z.mod_pos_bound. lia.
  - rewrite Hself, Sself. destruct (String.eqb_spec o "-selftest") as [->|?];
      cbn; naive_solver.
  - rewrite Hverb, Sverb. destruct (String.eqb_spec o "-verbose") as [->|?];
      cbn; naive_solver.
Qed.

(** X16: when [parseCommandLine] returns, a field of [conf] whose option
    name does not occur on the command line is as it was; [irqCount] is
    otherwise whatever [std::stoi] made of an argument, with no check
    against the 32 sources the distributor can take; [axiAddr] is
    otherwise a 32-bit value; and the two flags are set exactly when they
    were set before or their option occurs: the command line can switch
    them on but not off. *)
Theorem parse_loop_fields stoi tokens : ∀ c c',
  parse_loop stoi c tokens = Parsed c' → fields_follow stoi tokens c c'.
Proof.
  induction tokens as [|o _|o n r IHr IHnr] using tokens_ind; intros c c'.
  - intros [= <-]. unfold fields_follow. split_and!; try done; set_solver.
  - rewrite parse_loop_last.
    destruct (apply_option stoi c o "") as [c1| | |] eqn:Hstep; intros [= <-].
    apply (fields_follow_step stoi [o] [] c o "" c1 c1 Hstep); [|set_solver].
    unfold fields_follow. split_and!; try done; set_solver.
  - rewrite parse_loop_next. destruct (has_argument n) eqn:Hn.
    + destruct (apply_option stoi c o n) as [c1| | |] eqn:Hstep; try done.
      intros Hrun. apply (fields_follow_step stoi _ r c o n c1 c' Hstep); [by apply IHr|].
      intros x Hx. apply option_names_dash in Hx.
      assert (x ≠ n) by congruence. set_solver.
    + destruct (apply_option stoi c o "") as [c1| | |] eqn:Hstep; try done.
      intros Hrun.
      apply (fields_follow_step stoi _ (n :: r) c o "" c1 c' Hstep); [by apply IHnr|].
      set_solver.
Qed.

Lemma parse_loop_fields_witness :
  fields_follow stoi_digit ["-vectors"; "8"; "-dir"; "-selftest"] conf_default
    (conf_t.mk "10ee:903f" "" 8 16384 true false).
Proof.
  apply (parse_loop_fields stoi_digit ["-vectors"; "8"; "-dir"; "-selftest"] conf_default).
  reflexivity.
Defined.

(** X17: how [parseCommandLine] ends, read off the command line.  It
    returns only when every token that begins with a dash is one of the six
    option names and the first token begins with a dash: no unknown option
    is passed over.  It ends in [showHelp] only when some token is not an
    option name, and by an exception of [std::stoi] only when -vectors or
    -axi occurs.  It reads beyond the end of [argv] only when [argv] does
    not even hold the program name. *)
Theorem parseCommandLine_ends stoi c argv :
  match parseCommandLine stoi c argv with
  | Parsed _ =>
      Forall (λ t, has_argument t = false → t ∈ option_names) (tail argv) ∧
      starts_afresh (tail argv)
  | ShowHelp => ∃ t, t ∈ tail argv ∧ t ∉ option_names
  | Thrown => "-vectors" ∈ tail argv ∨ "-axi" ∈ tail argv
  | BadArgv => argv = []
  end.
Proof.
  destruct argv as [|prog tokens]; [done|]. cbn [parseCommandLine tail].
  revert c. induction tokens as [|o _|o n r IHr IHnr] using tokens_ind; intros c.
  - done.
  - rewrite parse_loop_last. pose proof (apply_option_cases stoi c o "") as Hc.
    destruct (apply_option stoi c o "").
    + split; [|by apply option_names_dash]. constructor; [done|constructor].
    + exists o. set_solver.
    + set_solver.
    + done.
  - rewrite parse_loop_next. destruct (has_argument n) eqn:Hn.
    + pose proof (apply_option_cases stoi c o n) as Hc.
      destruct (apply_option stoi c o n) as [c1| | |].
      * specialize (IHr c1). destruct (parse_loop stoi c1 r).
        -- destruct IHr as [IH _]. split; [|by apply option_names_dash].
           constructor; [done|]. constructor; [congruence|done].
        -- destruct IHr as (t & ? & ?). exists t. set_solver.
        -- set_solver.
        -- done.
      * exists o. set_solver.
      * set_solver.
      * done.
    + pose proof (apply_option_cases stoi c o "") as Hc.
      destruct (apply_option stoi c o "") as [c1| | |].
      * specialize (IHnr c1). destruct (parse_loop stoi c1 (n :: r)).
        -- destruct IHnr as [IH _]. split; [|by apply option_names_dash].
           by constructor.
        -- destruct IHnr as (t & ? & ?). exists t. set_solver.
        -- set_solver.
        -- done.
      * exists o. set_solver.
      * set_solver.
      * done.
Qed.

(** ** init without cleanup *)



(** ** Descriptors beyond FD_SETSIZE *)

(** X19: [init] takes whatever descriptors the system hands out, but
    [distribute] can only work with descriptors below [FD_SETSIZE].  When
    [init] has succeeded with [highestFD_] at or above [FD_SETSIZE] (the
    process held that many descriptors already), the first loop of every
    [distribute] passes that descriptor to [FD_SET]: the behaviour is
    undefined before any poll or write is made. *)
Theorem distribute_beyond_FD_SETSIZE dir irqCount s0 s1 w irqSources :
  array_ok (obj s0) → (String.length dir ≤ 243)%nat →
  init dir irqCount s0 = Returned true s1 →
  FD_SETSIZE ≤ highestFD_ (obj s1) →
  distribute irqSources (mkState (obj s1) w)
  = Undefined FdSetOverrun (mkState (obj s1) w).
Proof.
  intros Harr Hdir Hinit Hhigh.
  assert (Hmax : irqCount ≤ MAX_IRQS) by (by eapply init_returned).
  destruct (init_post dir irqCount s0 Harr Hmax Hdir)
    as (b & s1' & m & Hrun & Hm & Hb & _ & Hc & Harr1 & _ & _ & _ & _ & _ & _ & _ & Hh).
  rewrite Hinit in Hrun. injection Hrun as <- <-.
  destruct Hh as [Hh|(j & Hj & Hslot)]; [unfold FD_SETSIZE in *; lia|].
  rewrite distribute_unfold. cbn [obj].
  rewrite fdset_loop_faults; [done|done|unfold MAX_IRQS in *; lia| |].
  - cbn [obj]. unfold array_ok, MAX_IRQS in *. lia.
  - exists j, (highestFD_ (obj s1)). cbn [obj]. split_and!; try done; lia.
Qed.

Lemma distribute_beyond_FD_SETSIZE_witness :
  distribute 1 (mkState (obj (final (init "." 1 crowded_state))) demo_world)
  = Undefined FdSetOverrun (mkState (obj (final (init "." 1 crowded_state))) demo_world).
Proof.
  apply (distribute_beyond_FD_SETSIZE "." 1 crowded_state
           (final (init "." 1 crowded_state)) demo_world 1).
  - reflexivity.
  - cbn. lia.
  - vm_compute. reflexivity.
  - vm_compute. discriminate.
Defined.
